(** * intensity-normalization: CSF control mask and the preprocessing entry point

    A shallow embedding of
      - [intensity_normalization/utilities/csf.py]  ([csf_mask], [csf_mask_intersection])
      - [intensity_normalization/exec/preprocess.py] ([main])

    Conventions of the embedding.
      - A finite Python or numpy float is the rational number it stands for
        ([Q]), and an operation that rounds is the exact operation followed
        by [fl64] (a Python float, binary64) or [fl32] (a float32 array):
        round to nearest, ties to even, on a significand of 53 or 24 bits.
        The exponent range is not bounded (no infinities, no subnormal
        numbers). The only NaN the code can create from finite data, the
        mean of an empty selection, is [None]. The sum of the per-image 0/1
        masks is taken exactly, as float32 does below 2^24 images (a
        directory of a [World] lists fewer files).
      - All arrays of one run live on one voxel grid (the invariant of the data
        model: an image, its brain mask and the segmentation's probability
        images share their geometry), so an array is a function on the voxels
        of that grid, and [voxels] lists the grid in storage order.
      - ANTsPy, nibabel, [glob], [ants.image_read] and [io.split_filename] are
        the fields of a [World]; their calls are modelled as total functions
        and recorded in a trace of events. What a library raises of its own
        (ANTsPy handed a mask that is not an ANTs image, a file that cannot
        be read) is not modelled.
      - Exceptions are values of [pyerror]; a computation is a trace together
        with a value or the exception that ended it. *)

From Stdlib Require Import ZArith QArith Qround Qpower Lqa String Ascii Bool Lia List.
From Stdlib Require Import Sorting.Sorted Sorting.Permutation.
From Stdlib Require Import Numbers.DecimalString.
Import ListNotations.

Local Open Scope string_scope.
Local Open Scope Q_scope.
Local Open Scope list_scope.

(** ** Python values the functions dispatch on *)

(** What [img] and [brain_mask] can be at run time: a nibabel image (it has
    [get_data]), an ANTs image (it has [kmeans_segmentation]), or [None]
    (the default of [masks]). *)
Inductive pyobj (A N : Type) : Type :=
| Nib (n : N)
| Ants (a : A)
| PyNone.
Arguments Nib {A N} n.
Arguments Ants {A N} a.
Arguments PyNone {A N}.

(** [hasattr(x, 'get_data')] *)
Definition has_get_data {A N} (x : pyobj A N) : bool :=
  match x with Nib _ => true | _ => false end.

(** The exceptions of [csf.py]. [NormalizationError] carries the value that
    the message formats. *)
Inductive pyerror : Type :=
| NormalizationError (given : Q)
| TypeError
| ValueError
| IndexError
| AttributeError.

Inductive result (A : Type) : Type :=
| Ok (a : A)
| Err (e : pyerror).
Arguments Ok {A} a.
Arguments Err {A} e.

Definition no_validation_error {A} (r : result A) : Prop :=
  forall q, r <> Err (NormalizationError q).

(** ** Floating point *)

Definition pow2 (k : Z) : Q := 2 ^ k.

(** The binade of a positive number: the [e] with [2^e <= x < 2^(e+1)]. *)
Definition binade (x : Q) : Z :=
  let e0 := (Z.log2 (Qnum x) - Z.log2 (Zpos (Qden x)))%Z in
  if Qle_bool (pow2 e0) x then e0 else (e0 - 1)%Z.

(** The nearest integer, the even one of two that are equally near. *)
Definition rne (q : Q) : Z :=
  let f := Qfloor q in
  match Qcompare (q - inject_Z f) (1 # 2) with
  | Lt => f
  | Gt => (f + 1)%Z
  | Eq => if Z.even f then f else (f + 1)%Z
  end.

(** A positive number rounded to a significand of [prec] bits. *)
Definition round_pos (prec : Z) (x : Q) : Q :=
  let e := binade x in
  inject_Z (rne (x * pow2 (prec - 1 - e))) * pow2 (e - (prec - 1)).

Definition round_to (prec : Z) (x : Q) : Q :=
  match Qcompare x 0 with
  | Gt => round_pos prec x
  | Lt => - round_pos prec (- x)
  | Eq => 0
  end.

(** The nearest float32 and the nearest double. *)
Definition fl32 : Q -> Q := round_to 24.
Definition fl64 : Q -> Q := round_to 53.

(** ** The libraries and the file system *)

Class World : Type := {
  voxel : Type;
  voxels : list voxel;
  ANTsImage : Type;
  Nifti1Image : Type;
  (** [img.numpy()] *)
  numpy : ANTsImage -> voxel -> Q;
  (** [ants.from_nibabel] *)
  from_nibabel : Nifti1Image -> ANTsImage;
  (** [img.kmeans_segmentation(k, kmask=..., mrf=...)['probabilityimages']] *)
  kmeans_segmentation :
    ANTsImage -> nat -> pyobj ANTsImage Nifti1Image -> Q -> list ANTsImage;
  (** [ants.image_read] *)
  image_read : string -> ANTsImage;
  (** [glob.glob]: the matching paths, in the order the file system gives them *)
  glob : string -> list string;
  (** [io.split_filename]: (directory, base name, extension) *)
  split_filename : string -> string * string * string;
  (** [np.mean] of a non-empty array of finite values: numpy's sum in the
      floating-point type of the array, divided by the number of values *)
  mean_of : list Q -> Q;
  (** A directory lists fewer than 2^24 files: [len(data)] is a double, and
      the float32 sum of as many 0/1 masks is exact. *)
  glob_small : forall pattern, (Z.of_nat (length (glob pattern)) < 2 ^ 24)%Z
}.

Section Csf.
Context {W : World}.

Definition ndarray : Type := voxel -> Q.
Definition image : Type := pyobj ANTsImage Nifti1Image.

(** ** Traces and exceptions *)

Inductive event : Type :=
| EvGlob (pattern : string)
| EvImageRead (path : string)
| EvLogInfo (msg : string)
| EvFromNibabel (n : Nifti1Image)
| EvKmeans (img : ANTsImage) (k : nat) (kmask : image) (mrf : Q).

Definition M (A : Type) : Type := (list event * result A)%type.

Definition ret {A} (a : A) : M A := ([], Ok a).
Definition raise {A} (e : pyerror) : M A := ([], Err e).
Definition emit (e : event) : M unit := ([e], Ok tt).
Definition lift {A} (r : result A) : M A := ([], r).

Definition bind {A B} (m : M A) (f : A -> M B) : M B :=
  match m with
  | (t, Ok a) => let (t', r) := f a in (t ++ t', r)
  | (t, Err e) => (t, Err e)
  end.

Notation "x <- m ;; k" := (bind m (fun x => k))
  (at level 100, m at next level, right associativity).
Notation "m ;;; k" := (bind m (fun _ => k))
  (at level 100, right associativity).

(** ** numpy *)

Definition Qlt_bool (x y : Q) : bool := negb (Qle_bool y x).

(** [a[b]] for a boolean array [b] on the grid of [a]: the selected values
    in storage order. *)
Definition bool_index (a : ndarray) (b : voxel -> bool) : list Q :=
  map a (filter b voxels).

Definition Qsum (l : list Q) : Q := fold_right Qplus 0 l.

(** [np.mean]: NaN on an empty selection. *)
Definition np_mean (l : list Q) : option Q :=
  match l with
  | [] => None
  | _ => Some (mean_of l)
  end.

(** The scan of [np.argmin]: an element replaces the minimum [mp] when it is
    not [>= mp]; a NaN does so and ends the scan. *)
Fixpoint argmin_scan (l : list (option Q)) (i : nat) (mp : Q) (min_ind : nat) : nat :=
  match l with
  | [] => min_ind
  | None :: _ => i
  | Some x :: l' =>
      if Qle_bool mp x then argmin_scan l' (S i) mp min_ind
      else argmin_scan l' (S i) x i
  end.

Definition np_argmin (l : list (option Q)) : result nat :=
  match l with
  | [] => Err ValueError
  | None :: _ => Ok 0%nat
  | Some x :: l' => Ok (argmin_scan l' 1 x 0)
  end.

(** [(a > t).astype(np.float32)] for a float32 array [a] and a Python
    float [t]: numpy compares in float32, with [t] cast to float32. *)
Definition gt_astype_float (a : ndarray) (t : Q) : ndarray :=
  fun v => if Qlt_bool (fl32 t) (a v) then 1 else 0.

(** [operator.add] on two arrays *)
Definition add (a b : ndarray) : ndarray := fun v => a v + b v.

(** [functools.reduce(f, l)] without an initial value *)
Definition reduce {A} (f : A -> A -> A) (l : list A) : result A :=
  match l with
  | [] => Err TypeError
  | x :: xs => Ok (fold_left f xs x)
  end.

(** ** csf_mask *)

(** [ants.from_nibabel(x)]; the guard of line 47 lets only nibabel images
    reach it. *)
Definition ants_from_nibabel (x : image) : M image :=
  match x with
  | Nib n => emit (EvFromNibabel n) ;;; ret (Ants (from_nibabel n))
  | _ => raise AttributeError
  end.

(** Lines 47-49 *)
Definition to_antspy (img brain_mask : image) : M (image * image) :=
  if has_get_data img && has_get_data brain_mask then
    img' <- ants_from_nibabel img ;;
    brain_mask' <- ants_from_nibabel brain_mask ;;
    ret (img', brain_mask')
  else ret (img, brain_mask).

(** Line 50: the method exists on ANTs images only. *)
Definition call_kmeans (img brain_mask : image) (mrf : Q) : M (ANTsImage * list ANTsImage) :=
  match img with
  | Ants a =>
      emit (EvKmeans a 3 brain_mask mrf) ;;;
      ret (a, kmeans_segmentation a 3 brain_mask mrf)
  | _ => raise AttributeError
  end.

(** Line 51; the scalar 0.5 is a float32, its cast changes nothing. *)
Definition avg_intensity (img : ANTsImage) (probs : list ANTsImage) : list (option Q) :=
  map (fun prob_img =>
         np_mean (bool_index (numpy img) (fun v => Qlt_bool (1 # 2) (numpy prob_img v))))
      probs.

Definition csf_mask (img brain_mask : image) (csf_thresh : Q) (return_prob : bool)
  (mrf : Q) : M ndarray :=
  ib <- to_antspy img brain_mask ;;
  res <- call_kmeans (fst ib) (snd ib) mrf ;;
  csf_arg <- lift (np_argmin (avg_intensity (fst res) (snd res))) ;;
  match nth_error (snd res) csf_arg with
  | None => raise IndexError
  | Some p =>
      let csf := numpy p in
      if negb return_prob then ret (gt_astype_float csf csf_thresh) else ret csf
  end.

(** The defaults of the signature: [csf_thresh=0.9, return_prob=False, mrf=0.25]. *)
Definition csf_mask_default (img brain_mask : image) : M ndarray :=
  csf_mask img brain_mask (9 # 10) false (1 # 4).

(** ** csf_mask_intersection *)

Definition ends_with_sep (s : string) : bool :=
  match rev (list_ascii_of_string s) with
  | c :: _ => Ascii.eqb c "/"%char
  | [] => false
  end.

(** [os.path.join(a, b)] (posixpath) *)
Definition os_path_join (a b : string) : string :=
  if String.prefix "/" b then b
  else if (a =? "")%string || ends_with_sep a then (a ++ b)%string
  else (a ++ "/" ++ b)%string.

(** [sorted] on a list of [str]: the order of [str] is the lexicographic
    order of the characters. *)
Fixpoint insert (x : string) (l : list string) : list string :=
  match l with
  | [] => [x]
  | y :: l' => if (x <=? y)%string then x :: l else y :: insert x l'
  end.

Definition sorted (l : list string) : list string := fold_right insert [] l.

(** The argument [masks]: a directory ([isinstance(masks, str)]) or any
    other object, [None] by default. *)
Inductive masks_arg : Type :=
| MasksDir (d : string)
| MasksObj (m : image).

(** An element of the list [masks] after line 76. *)
Inductive mask_item : Type :=
| MaskPath (p : string)
| MaskObj (m : image).

Definition dec (n : nat) : string := NilEmpty.string_of_uint (Nat.to_uint n).

(** ['Creating CSF mask for image {} ({:d}/{:d})'.format(base, pos, total)] *)
Definition progress_message (base : string) (pos total : nat) : string :=
  ("Creating CSF mask for image " ++ base ++ " (" ++ dec pos ++ "/" ++ dec total ++ ")")%string.

Definition prob_in_range (prob : Q) : bool := Qle_bool 0 prob && Qle_bool prob 1.

Definition glob_sorted (dir : string) : M (list string) :=
  let pattern := os_path_join dir "*.nii*" in
  emit (EvGlob pattern) ;;;
  ret (sorted (glob pattern)).

Definition ants_image_read (path : string) : M ANTsImage :=
  emit (EvImageRead path) ;;;
  ret (image_read path).

(** Line 82 *)
Definition read_mask (mask : mask_item) : M image :=
  match mask with
  | MaskPath p => a <- ants_image_read p ;; ret (Ants a)
  | MaskObj m => ret m
  end.

(** Lines 78-83: the loop over [enumerate(zip(data, masks))]; [total] is
    [len(data)], [i] the running index and [csf] the list built so far. *)
Fixpoint csf_loop (total i : nat) (pairs : list (string * mask_item))
  (csf : list ndarray) : M (list ndarray) :=
  match pairs with
  | [] => ret csf
  | (img, mask) :: rest =>
      let '(_, base, _) := split_filename img in
      emit (EvLogInfo (progress_message base (i + 1) total)) ;;;
      imgn <- ants_image_read img ;;
      maskn <- read_mask mask ;;
      c <- csf_mask_default (Ants imgn) maskn ;;
      csf_loop total (S i) rest (csf ++ [c])
  end.

(** [np.floor] *)
Definition np_floor (x : Q) : Q := inject_Z (Qfloor x).

Definition np_zeros : ndarray := fun _ => 0.

(** [a[b] = x] for a boolean array [b] *)
Definition set_where (a : ndarray) (b : voxel -> bool) (x : Q) : ndarray :=
  fun v => if b v then x else a v.

Definition len {A} (l : list A) : Q := inject_Z (Z.of_nat (length l)).

Definition csf_mask_intersection (img_dir : string) (masks : masks_arg) (prob : Q)
  : M ndarray :=
  if negb (prob_in_range prob) then raise (NormalizationError prob) else
  data <- glob_sorted img_dir ;;
  masks <- match masks with
           | MasksDir d => l <- glob_sorted d ;; ret (map MaskPath l)
           | MasksObj m => ret (repeat (MaskObj m) (length data))
           end ;;
  csf <- csf_loop (length data) 0 (combine data masks) [] ;;
  csf_sum <- lift (reduce add csf) ;;
  let intersection := np_zeros in
  let intersection :=
    set_where intersection
      (fun v => Qle_bool (np_floor (fl64 (len data * prob))) (csf_sum v)) 1 in
  ret intersection.

(** ** Notions the statements use *)

(** The voxels a class owns: membership above one half. *)
Definition class_voxels (prob_img : ANTsImage) : list voxel :=
  filter (fun v => Qlt_bool (1 # 2) (numpy prob_img v)) voxels.

(** The mean intensity of [img] over the voxels of a class, as [np.mean]
    computes it. *)
Definition class_mean (img prob_img : ANTsImage) : Q :=
  mean_of (map (numpy img) (class_voxels prob_img)).

(** The number of images that label a voxel CSF. *)
Definition votes (csf : list ndarray) (v : voxel) : Q :=
  Qsum (map (fun c => c v) csf).

(** What line 82 hands to [csf_mask]. *)
Definition load_mask (mask : mask_item) : image :=
  match mask with
  | MaskPath p => Ants (image_read p)
  | MaskObj m => m
  end.

Definition logs (t : list event) : list string :=
  flat_map (fun e => match e with EvLogInfo s => [s] | _ => [] end) t.

Definition reads (t : list event) : list string :=
  flat_map (fun e => match e with EvImageRead p => [p] | _ => [] end) t.

Definition base_name (path : string) : string := snd (fst (split_filename path)).

(** [data] after line 75 and [masks] after line 76. *)
Definition image_list (img_dir : string) : list string :=
  sorted (glob (os_path_join img_dir "*.nii*")).

Definition mask_list (masks : masks_arg) (data : list string) : list mask_item :=
  match masks with
  | MasksDir d => map MaskPath (sorted (glob (os_path_join d "*.nii*")))
  | MasksObj m => repeat (MaskObj m) (length data)
  end.

(** The calls of lines 75 and 76 that list a directory. *)
Definition listing_trace (img_dir : string) (masks : masks_arg) : list event :=
  EvGlob (os_path_join img_dir "*.nii*") ::
  match masks with
  | MasksDir d => [EvGlob (os_path_join d "*.nii*")]
  | MasksObj _ => []
  end.

(** The events of the loop when every iteration completes. *)
Fixpoint loop_trace (total i : nat) (pairs : list (string * mask_item)) : list event :=
  match pairs with
  | [] => []
  | (img, mask) :: rest =>
      EvLogInfo (progress_message (base_name img) (i + 1) total) ::
      EvImageRead img ::
      match mask with MaskPath p => [EvImageRead p] | MaskObj _ => [] end ++
      EvKmeans (image_read img) 3 (load_mask mask) (1 # 4) ::
      loop_trace total (S i) rest
  end.

(** [csf] holds, pair by pair, what [csf_mask] returns with its defaults. *)
Definition computed_masks (pairs : list (string * mask_item)) (csf : list ndarray) : Prop :=
  Forall2 (fun pr c =>
             snd (csf_mask_default (Ants (image_read (fst pr))) (load_mask (snd pr))) = Ok c)
          pairs csf.

Definition is_binary (c : ndarray) : Prop := forall v, c v = 0 \/ c v = 1.

End Csf.

(** The order of [str]. *)
Definition string_lt (a b : string) : Prop := String.compare a b = Lt.
Definition string_le (a b : string) : Prop := (a <=? b)%string = true.

(** [enumerate] *)
Definition enumerate {A} (l : list A) : list (nat * A) := combine (seq 0 (length l)) l.

(** The progress messages of a run over [processed], each with its 1-indexed
    position and the total [total]. *)
Definition progress_log {W : World} (total : nat) (processed : list string) : list string :=
  map (fun ki => progress_message (base_name (snd ki)) (fst ki + 1) total)
      (enumerate processed).

(** ** Sentences of the specification, as they are worded *)

(** The ANTs image an accepted input stands for. *)
Definition as_ants {W : World} (x : image) : option ANTsImage :=
  match x with
  | Nib n => Some (from_nibabel n)
  | Ants a => Some a
  | PyNone => None
  end.

(** "Input images given in either of two accepted in-memory representations
    are normalized to the representation required by the segmentation
    library before processing": whichever representation each input has, the
    segmentation is called on the two ANTs images. *)
Definition both_inputs_reach_segmentation_as_ants {W : World}
  (img brain_mask : image) : Prop :=
  forall a b, as_ants img = Some a -> as_ants brain_mask = Some b ->
  forall csf_thresh return_prob mrf,
    In (EvKmeans a 3 (Ants b) mrf)
       (fst (csf_mask img brain_mask csf_thresh return_prob mrf)).


(** "For [prob = 0.0], intersection at v equals 1 iff at least one image's
    mask is 1 at v." *)
Definition prob_zero_is_union {W : World} (img_dir : string) (masks : masks_arg) : Prop :=
  let data := image_list img_dir in
  let pairs := combine data (mask_list masks data) in
  forall csf out,
    computed_masks pairs csf ->
    snd (csf_mask_intersection img_dir masks 0) = Ok out ->
    forall v, In v voxels -> (out v = 1 <-> Exists (fun c => c v = 1) csf).

(** "Progress logs reflect true 1-indexed position out of true total count":
    the total of every message is the number of images processed. *)
Definition progress_counts_processed_images {W : World}
  (img_dir : string) (masks : masks_arg) (prob : Q) : Prop :=
  let data := image_list img_dir in
  let processed := map fst (combine data (mask_list masks data)) in
  StronglySorted string_lt processed /\
  logs (fst (csf_mask_intersection img_dir masks prob)) =
    progress_log (length processed) processed.

(** A mask directory with another number of files than the image directory
    raises no error: the first [min] pairs are processed and the messages
    carry the number of images as their total. *)
Definition unequal_listings_raise_no_error {W : World}
  (img_dir mask_dir : string) (prob : Q) : Prop :=
  let data := image_list img_dir in
  let ms := image_list mask_dir in
  let k := Nat.min (length data) (length ms) in
  length data <> length ms ->
  (exists out, snd (csf_mask_intersection img_dir (MasksDir mask_dir) prob) = Ok out) /\
  reads (fst (csf_mask_intersection img_dir (MasksDir mask_dir) prob)) =
    flat_map (fun p => [fst p; snd p]) (combine (firstn k data) (firstn k ms)) /\
  logs (fst (csf_mask_intersection img_dir (MasksDir mask_dir) prob)) =
    progress_log (length data) (firstn k data).

(** ** Further notions *)

(** The calls of the segmentation a trace shows: the image and the mask of
    each call. *)
Definition segmentations {W : World} (t : list event) : list (ANTsImage * image) :=
  flat_map (fun e => match e with EvKmeans a _ m _ => [(a, m)] | _ => [] end) t.

(** * The command line entry point ([exec/preprocess.py]) *)

Module Preprocess.

(** The exceptions of Python: an instance of [Exception], or one of the
    classes that derive from [BaseException] alone. *)
Inductive exception : Type :=
| ExceptionInstance (class message : string)
| SystemExit (code : Z)
| KeyboardInterrupt
| GeneratorExit.

(** [isinstance(e, Exception)], the test of [except Exception]. *)
Definition isinstance_Exception (e : exception) : bool :=
  match e with
  | ExceptionInstance _ _ => true
  | _ => false
  end.

Inductive outcome (A : Type) : Type :=
| Returned (a : A)
| Raised (e : exception).
Arguments Returned {A} a.
Arguments Raised {A} e.

(** The namespace [parse_args] returns. *)
Record Namespace : Type := {
  img_dir : string;
  mask_dir : string;
  out_dir : string;
  resolution : Z * Z * Z;
  orientation : string;
  n4_opts : option (list (string * string));
  verbosity : nat
}.

Inductive level : Type := WARNING | INFO | DEBUG.

Inductive log_event : Type :=
| BasicConfig (lvl : level)
(** [logger.exception(e)]: the message of [e] at level ERROR with the traceback *)
| LoggerException (e : exception).

Section Main.

(** [intensity_normalization.utilities.preprocess.preprocess] lives in
    another module of the package: what it does on the parsed arguments is
    a parameter. *)
Variable preprocess :
  string -> string -> string -> Z * Z * Z -> string ->
  option (list (string * string)) -> outcome unit.

(** Lines 51-56 *)
Definition level_of (v : nat) : level :=
  if (v =? 1)%nat then INFO
  else if (2 <=? v)%nat then DEBUG
  else WARNING.

(** [main], from what [arg_parser().parse_args()] did: it returned a
    namespace, or left through [SystemExit] (a usage error, [--help]). The
    call is made before the [try] statement. *)
Definition main (parsed : outcome Namespace) : list log_event * outcome Z :=
  match parsed with
  | Raised e => ([], Raised e)
  | Returned args =>
      let lvl := level_of (verbosity args) in
      match preprocess (img_dir args) (mask_dir args) (out_dir args)
                       (resolution args) (orientation args) (n4_opts args) with
      | Returned _ => ([BasicConfig lvl], Returned 0%Z)
      | Raised e =>
          if isinstance_Exception e
          then ([BasicConfig lvl; LoggerException e], Returned 1%Z)
          else ([BasicConfig lvl], Raised e)
      end
  end.

(** The sentence of the specification, as it is worded: 0 on success, 1
    with the exception logged on any exception, and nothing escapes. *)
Definition every_exception_becomes_exit_code_1 (args : Namespace) : Prop :=
  let call := preprocess (img_dir args) (mask_dir args) (out_dir args)
                         (resolution args) (orientation args) (n4_opts args) in
  (call = Returned tt -> snd (main (Returned args)) = Returned 0%Z) /\
  (forall e, call = Raised e ->
     main (Returned args) =
       ([BasicConfig (level_of (verbosity args)); LoggerException e], Returned 1%Z)) /\
  (forall e, snd (main (Returned args)) <> Raised e).

End Main.

Definition default_args : Namespace := {|
  img_dir := "imgs"; mask_dir := "masks"; out_dir := "out";
  resolution := (1, 1, 1)%Z; orientation := "RAI"; n4_opts := None; verbosity := 0
|}.

(** A run of [preprocess] that the user interrupts. *)
Definition interrupted (_ _ _ : string) (_ : Z * Z * Z) (_ : string)
  (_ : option (list (string * string))) : outcome unit :=
  Raised KeyboardInterrupt.

(** A run of [preprocess] that fails on a missing file. *)
Definition failing (_ _ _ : string) (_ : Z * Z * Z) (_ : string)
  (_ : option (list (string * string))) : outcome unit :=
  Raised (ExceptionInstance "FileNotFoundError" "imgs").

Definition succeeding (_ _ _ : string) (_ : Z * Z * Z) (_ : string)
  (_ : option (list (string * string))) : outcome unit :=
  Returned tt.

End Preprocess.

(** ** A small world on which the definitions run

    Four voxels; an image is the list of its four intensities. The
    segmentation returns the bright, the dark and the middle class, in this
    order, as 0/1 membership maps. *)

Definition tiny_classes (a : list Q) : list (list Q) :=
  [ map (fun x => if Qle_bool x 5 then 0 else 1) a;
    map (fun x => if Qle_bool x 1 then 1 else 0) a;
    map (fun x => if Qle_bool x 1 then 0 else if Qle_bool x 5 then 1 else 0) a ].

Definition tiny_read (path : string) : list Q :=
  if (path =? "imgs/a.nii.gz")%string then [0; 1; 4; 9]
  else if (path =? "imgs/b.nii")%string then [1; 3; 0; 8]
  else if (path =? "imgs/c.nii")%string then [0; 7; 1; 3]
  else [1; 1; 1; 1].

Definition tiny_glob (pattern : string) : list string :=
  if (pattern =? "imgs/*.nii*")%string then ["imgs/c.nii"; "imgs/a.nii.gz"; "imgs/b.nii"]
  else if (pattern =? "masks/*.nii*")%string then ["masks/m2.nii"; "masks/m1.nii"]
  else [].

(** The mean of the small worlds: their images hold small integers and a
    class owns one or two voxels, so the sum and the quotient that numpy
    rounds are the exact ones. *)
Definition exact_mean (l : list Q) : Q := Qsum l / inject_Z (Z.of_nat (length l)).

(** No listing of the small world has more than three files. *)
Lemma tiny_glob_small pattern : (Z.of_nat (length (tiny_glob pattern)) < 2 ^ 24)%Z.
Proof.
  unfold tiny_glob.
  destruct (pattern =? "imgs/*.nii*")%string; [reflexivity|].
  destruct (pattern =? "masks/*.nii*")%string; reflexivity.
Qed.

Definition tiny : World := {|
  voxel := nat;
  voxels := [0; 1; 2; 3]%nat;
  ANTsImage := list Q;
  Nifti1Image := list Q;
  numpy := fun a v => nth v a 0;
  from_nibabel := fun n => n;
  kmeans_segmentation := fun a _ _ _ => tiny_classes a;
  image_read := tiny_read;
  glob := tiny_glob;
  split_filename := fun p => ("", p, "");
  mean_of := exact_mean;
  glob_small := tiny_glob_small
|}.

Definition tiny_image (l : list Q) : @ANTsImage tiny := l.



(** The same world with a segmentation that returns nothing for the image
    whose second voxel has intensity 3 (["imgs/b.nii"]). *)
Definition tiny_broken : World := {|
  voxel := nat;
  voxels := [0; 1; 2; 3]%nat;
  ANTsImage := list Q;
  Nifti1Image := list Q;
  numpy := fun a v => nth v a 0;
  from_nibabel := fun n => n;
  kmeans_segmentation := fun a _ _ _ =>
    if Qeq_bool (nth 1 a 0) 3 then [] else tiny_classes a;
  image_read := tiny_read;
  glob := tiny_glob;
  split_filename := fun p => ("", p, "");
  mean_of := exact_mean;
  glob_small := tiny_glob_small
|}.

(** * Facts *)

(** ** Rounding *)

Lemma pow2_pos k : 0 < pow2 k.
Proof. apply Qpower_0_lt. reflexivity. Qed.

Lemma pow2_plus a b : pow2 (a + b) == pow2 a * pow2 b.
Proof. apply Qpower_plus. discriminate. Qed.

Lemma pow2_le a b : (a <= b)%Z -> pow2 a <= pow2 b.
Proof. intros H. apply Qpower_le_compat_l; [exact H|discriminate]. Qed.

Lemma pow2_lt a b : (a < b)%Z -> pow2 a < pow2 b.
Proof. intros H. apply Qpower_lt_compat_l; [exact H|reflexivity]. Qed.

Lemma pow2_lt_inv a b : pow2 a < pow2 b -> (a < b)%Z.
Proof. intros H. apply (Qpower_lt_compat_l_inv 2); [exact H|reflexivity]. Qed.

Lemma pow2_Z k : (0 <= k)%Z -> inject_Z (2 ^ k) == pow2 k.
Proof. intros H. apply (Zpower_Qpower 2 k H). Qed.

Lemma pow2_cancel k : pow2 k * pow2 (- k) == 1.
Proof. rewrite <- pow2_plus, Z.add_opp_diag_r. reflexivity. Qed.

Lemma Q_as_fraction x : x == inject_Z (Qnum x) / inject_Z (Zpos (Qden x)).
Proof.
  destruct x as [a b]. unfold Qeq, Qdiv, Qmult, Qinv, inject_Z. simpl. lia.
Qed.

Lemma log2_bounds (a : Z) :
  (0 < a)%Z -> pow2 (Z.log2 a) <= inject_Z a /\ inject_Z a < pow2 (Z.log2 a + 1).
Proof.
  intros Ha. destruct (Z.log2_spec a Ha) as [H1 H2].
  pose proof (Z.log2_nonneg a) as Hn.
  rewrite <- !pow2_Z by lia. rewrite <- Zle_Qle, <- Zlt_Qlt.
  rewrite <- Z.add_1_r in H2. split; assumption.
Qed.

Lemma binade_candidate x :
  0 < x ->
  let e0 := (Z.log2 (Qnum x) - Z.log2 (Zpos (Qden x)))%Z in
  pow2 (e0 - 1) <= x /\ x < pow2 (e0 + 1).
Proof.
  intros Hx e0.
  assert (Ha : (0 < Qnum x)%Z) by (destruct x as [a b]; unfold Qlt in Hx; simpl in *; lia).
  destruct (log2_bounds (Qnum x) Ha) as [Ha1 Ha2].
  destruct (log2_bounds (Zpos (Qden x)) eq_refl) as [Hb1 Hb2].
  set (la := Z.log2 (Qnum x)) in *. set (lb := Z.log2 (Zpos (Qden x))) in *.
  assert (Hb : 0 < inject_Z (Zpos (Qden x))) by reflexivity.
  pose proof (Q_as_fraction x) as Hq.
  set (q := inject_Z (Qnum x) / inject_Z (Zpos (Qden x))) in *.
  rewrite Hq. unfold q.
  split.
  - apply Qle_shift_div_l; [exact Hb|].
    apply Qle_trans with (pow2 (e0 - 1) * pow2 (lb + 1)).
    + apply Qmult_le_l; [apply pow2_pos|]. apply Qlt_le_weak. exact Hb2.
    + rewrite <- pow2_plus. replace (e0 - 1 + (lb + 1))%Z with la by (unfold e0; lia).
      exact Ha1.
  - apply Qlt_shift_div_r; [exact Hb|].
    apply Qlt_le_trans with (pow2 (la + 1)); [exact Ha2|].
    replace (la + 1)%Z with (e0 + 1 + lb)%Z by (unfold e0; lia).
    rewrite pow2_plus. apply Qmult_le_l; [apply pow2_pos|]. exact Hb1.
Qed.

Lemma binade_spec x :
  0 < x -> pow2 (binade x) <= x /\ x < pow2 (binade x + 1).
Proof.
  intros Hx. destruct (binade_candidate x Hx) as [H1 H2]. unfold binade.
  destruct (Qle_bool _ x) eqn:E.
  - apply Qle_bool_iff in E. split; assumption.
  - split; [exact H1|].
    replace (_ - 1 + 1)%Z with (Z.log2 (Qnum x) - Z.log2 (Zpos (Qden x)))%Z by lia.
    apply Qnot_le_lt. intros H. apply Qle_bool_iff in H. congruence.
Qed.

Lemma binade_unique x e :
  pow2 e <= x -> x < pow2 (e + 1) -> binade x = e.
Proof.
  intros H1 H2.
  assert (Hx : 0 < x) by (eapply Qlt_le_trans; [apply pow2_pos|exact H1]).
  destruct (binade_spec x Hx) as [H3 H4].
  assert ((binade x < e + 1)%Z)
    by (apply pow2_lt_inv; eapply Qle_lt_trans; eassumption).
  assert ((e < binade x + 1)%Z)
    by (apply pow2_lt_inv; eapply Qle_lt_trans; eassumption).
  lia.
Qed.

Lemma binade_comp x y : 0 < x -> x == y -> binade x = binade y.
Proof.
  intros Hx Hxy. destruct (binade_spec x Hx) as [H1 H2].
  symmetry. apply binade_unique; rewrite <- Hxy; assumption.
Qed.

Lemma binade_mono x y : 0 < x -> x <= y -> (binade x <= binade y)%Z.
Proof.
  intros Hx Hxy.
  assert (Hy : 0 < y) by (eapply Qlt_le_trans; eassumption).
  destruct (binade_spec x Hx) as [H1 _]. destruct (binade_spec y Hy) as [_ H2].
  assert ((binade x < binade y + 1)%Z); [|lia].
  apply pow2_lt_inv. eapply Qle_lt_trans; [exact H1|].
  eapply Qle_lt_trans; eassumption.
Qed.

Lemma rne_bounds q : (Qfloor q <= rne q <= Qfloor q + 1)%Z.
Proof.
  unfold rne. destruct (Qcompare _ _); [destruct (Z.even _)| |]; lia.
Qed.

Lemma rne_comp q q' : q == q' -> rne q = rne q'.
Proof.
  intros H. unfold rne. rewrite (Qfloor_comp q q' H).
  assert (E : Qcompare (q - inject_Z (Qfloor q')) (1 # 2) =
              Qcompare (q' - inject_Z (Qfloor q')) (1 # 2)).
  { apply Qcompare_comp; [|reflexivity]. apply Qplus_comp; [exact H|reflexivity]. }
  rewrite E. reflexivity.
Qed.

Lemma rne_Z z : rne (inject_Z z) = z.
Proof.
  unfold rne. rewrite Qfloor_Z.
  assert (H : Qcompare (inject_Z z - inject_Z z) (1 # 2) = Lt).
  { apply Qlt_alt. setoid_replace (inject_Z z - inject_Z z) with 0 by ring. reflexivity. }
  rewrite H. reflexivity.
Qed.

Lemma rne_mono q q' : q <= q' -> (rne q <= rne q')%Z.
Proof.
  intros H. pose proof (Qfloor_resp_le q q' H) as Hf.
  pose proof (rne_bounds q) as Hb. pose proof (rne_bounds q') as Hb'.
  destruct (Z.eq_dec (Qfloor q) (Qfloor q')) as [E|E]; [|lia].
  unfold rne. rewrite <- E.
  destruct (Qcompare_spec (q - inject_Z (Qfloor q)) (1 # 2)) as [H1|H1|H1];
    destruct (Qcompare_spec (q' - inject_Z (Qfloor q)) (1 # 2)) as [H2|H2|H2];
    try destruct (Z.even (Qfloor q)); try lia; exfalso; lra.
Qed.

Lemma rne_ge z q : inject_Z z <= q -> (z <= rne q)%Z.
Proof. intros H. rewrite <- (rne_Z z). apply rne_mono, H. Qed.

Lemma rne_le z q : q <= inject_Z z -> (rne q <= z)%Z.
Proof. intros H. rewrite <- (rne_Z z). apply rne_mono, H. Qed.

Section Rounding.
Variable prec : Z.
Hypothesis prec_pos : (1 <= prec)%Z.

Lemma round_pos_comp x y : 0 < x -> x == y -> round_pos prec x == round_pos prec y.
Proof.
  intros Hx Hxy. unfold round_pos. rewrite (binade_comp x y Hx Hxy).
  rewrite (rne_comp (x * _) (y * pow2 (prec - 1 - binade y))); [reflexivity|].
  rewrite Hxy. reflexivity.
Qed.

(** The scaled value lies between [2^(prec-1)] and [2^prec]. *)
Lemma scaled_bounds x :
  0 < x ->
  pow2 (prec - 1) <= x * pow2 (prec - 1 - binade x) /\
  x * pow2 (prec - 1 - binade x) < pow2 prec.
Proof.
  intros Hx. destruct (binade_spec x Hx) as [H1 H2].
  pose proof (pow2_pos (prec - 1 - binade x)) as Hp.
  split.
  - replace (prec - 1)%Z with (binade x + (prec - 1 - binade x))%Z at 1 by lia.
    rewrite pow2_plus. apply Qmult_le_compat_r; [exact H1|apply Qlt_le_weak, Hp].
  - replace prec with (binade x + 1 + (prec - 1 - binade x))%Z at 2 by lia.
    rewrite pow2_plus. apply Qmult_lt_compat_r; assumption.
Qed.

Lemma round_pos_bounds x :
  0 < x ->
  pow2 (binade x) <= round_pos prec x /\ round_pos prec x <= pow2 (binade x + 1).
Proof.
  intros Hx. destruct (scaled_bounds x Hx) as [H1 H2]. unfold round_pos.
  set (s := x * pow2 (prec - 1 - binade x)) in *.
  pose proof (pow2_pos (binade x - (prec - 1))) as Hp.
  rewrite <- (pow2_Z (prec - 1)) in H1 by lia.
  rewrite <- (pow2_Z prec) in H2 by lia.
  apply rne_ge in H1. apply Qlt_le_weak, rne_le in H2.
  rewrite Zle_Qle in H1, H2. rewrite pow2_Z in H1, H2 by lia.
  split.
  - replace (binade x) with (prec - 1 + (binade x - (prec - 1)))%Z at 1 by lia.
    rewrite pow2_plus. apply Qmult_le_compat_r; [exact H1|apply Qlt_le_weak, Hp].
  - replace (binade x + 1)%Z with (prec + (binade x - (prec - 1)))%Z by lia.
    rewrite pow2_plus. apply Qmult_le_compat_r; [exact H2|apply Qlt_le_weak, Hp].
Qed.

Lemma round_pos_positive x : 0 < x -> 0 < round_pos prec x.
Proof.
  intros Hx. eapply Qlt_le_trans; [apply (pow2_pos (binade x))|].
  apply round_pos_bounds, Hx.
Qed.

Lemma round_pos_mono x y : 0 < x -> x <= y -> round_pos prec x <= round_pos prec y.
Proof.
  intros Hx Hxy.
  assert (Hy : 0 < y) by (eapply Qlt_le_trans; eassumption).
  pose proof (binade_mono x y Hx Hxy) as He.
  destruct (Z.eq_dec (binade x) (binade y)) as [E|E].
  - unfold round_pos. rewrite E.
    apply Qmult_le_compat_r; [|apply Qlt_le_weak, pow2_pos].
    rewrite <- Zle_Qle. apply rne_mono.
    apply Qmult_le_compat_r; [exact Hxy|apply Qlt_le_weak, pow2_pos].
  - destruct (round_pos_bounds x Hx) as [_ H1].
    destruct (round_pos_bounds y Hy) as [H2 _].
    eapply Qle_trans; [exact H1|]. eapply Qle_trans; [|exact H2].
    apply pow2_le. lia.
Qed.

Lemma round_to_comp x y : x == y -> round_to prec x == round_to prec y.
Proof.
  intros H. unfold round_to. rewrite <- H.
  destruct (Qcompare_spec x 0) as [E|E|E]; [reflexivity| |].
  - apply Qopp_comp. apply round_pos_comp; [lra|rewrite H; reflexivity].
  - apply round_pos_comp; assumption.
Qed.

Lemma round_to_mono x y : x <= y -> round_to prec x <= round_to prec y.
Proof.
  intros H. unfold round_to.
  destruct (Qcompare_spec x 0) as [Ex|Ex|Ex];
    destruct (Qcompare_spec y 0) as [Ey|Ey|Ey]; try (exfalso; lra); try apply Qle_refl.
  - apply Qlt_le_weak, round_pos_positive, Ey.
  - assert (0 < round_pos prec (- x)) by (apply round_pos_positive; lra). lra.
  - assert (round_pos prec (- y) <= round_pos prec (- x))
      by (apply round_pos_mono; lra). lra.
  - assert (0 < round_pos prec (- x)) by (apply round_pos_positive; lra).
    assert (0 < round_pos prec y) by (apply round_pos_positive; lra). lra.
  - apply round_pos_mono; assumption.
Qed.

(** Integers below [2^prec] are representable. *)
Lemma round_to_Z n :
  (0 <= n < 2 ^ prec)%Z -> round_to prec (inject_Z n) == inject_Z n.
Proof.
  intros [H0 Hn]. unfold round_to.
  destruct (Qcompare_spec (inject_Z n) 0) as [E|E|E].
  - symmetry. exact E.
  - exfalso. rewrite Zle_Qle in H0. change (inject_Z 0) with 0 in H0. lra.
  - destruct (binade_spec _ E) as [H1 H2]. unfold round_pos.
    set (e := binade (inject_Z n)) in *.
    assert (He : (e < prec)%Z).
    { apply pow2_lt_inv. eapply Qle_lt_trans; [exact H1|].
      rewrite <- pow2_Z by lia. rewrite <- Zlt_Qlt. exact Hn. }
    set (k := (prec - 1 - e)%Z).
    assert (Hk : (0 <= k)%Z) by (unfold k; lia).
    rewrite (rne_comp _ (inject_Z (n * 2 ^ k))).
    + rewrite rne_Z, inject_Z_mult, pow2_Z by exact Hk.
      replace (e - (prec - 1))%Z with (- k)%Z by (unfold k; lia).
      rewrite <- Qmult_assoc, pow2_cancel. ring.
    + rewrite inject_Z_mult, pow2_Z by exact Hk. reflexivity.
Qed.

End Rounding.

Lemma fl64_mono x y : x <= y -> fl64 x <= fl64 y.
Proof. apply round_to_mono. lia. Qed.
Lemma fl32_mono x y : x <= y -> fl32 x <= fl32 y.
Proof. apply round_to_mono. lia. Qed.
Lemma fl64_Z n : (0 <= n < 2 ^ 53)%Z -> fl64 (inject_Z n) == inject_Z n.
Proof. apply round_to_Z. lia. Qed.

Lemma fl32_half : fl32 (1 # 2) == 1 # 2.
Proof. reflexivity. Qed.

Lemma fl64_0 : fl64 0 = 0.
Proof. reflexivity. Qed.

Lemma fl64_1 : fl64 1 == 1.
Proof. reflexivity. Qed.

(** ** [sorted] *)

Lemma string_compare_refl s : String.compare s s = Eq.
Proof.
  induction s as [|c s IH]; simpl; [reflexivity|].
  unfold Ascii.compare. rewrite N.compare_refl. exact IH.
Qed.

Lemma string_lt_trans a : forall b c, string_lt a b -> string_lt b c -> string_lt a c.
Proof.
  unfold string_lt.
  induction a as [|x a IH]; intros [|y b] [|z c]; simpl; try congruence.
  destruct (Ascii.compare x y) eqn:Exy; try discriminate;
    destruct (Ascii.compare y z) eqn:Eyz; try discriminate; intros H1 H2.
  - apply Ascii.compare_eq_iff in Exy, Eyz. subst.
    rewrite (proj2 (N.compare_eq_iff _ _) eq_refl : Ascii.compare z z = Eq). eauto.
  - apply Ascii.compare_eq_iff in Exy. subst. rewrite Eyz. reflexivity.
  - apply Ascii.compare_eq_iff in Eyz. subst. rewrite Exy. reflexivity.
  - unfold Ascii.compare in *. rewrite N.compare_lt_iff in *.
    rewrite (proj2 (N.compare_lt_iff _ _) (N.lt_trans _ _ _ Exy Eyz)). reflexivity.
Qed.

Lemma string_le_lt_or_eq a b : string_le a b <-> string_lt a b \/ a = b.
Proof.
  unfold string_le, string_lt, String.leb. split.
  - destruct (String.compare a b) eqn:E; intros H; try discriminate; auto.
    right. apply String.compare_eq_iff. exact E.
  - intros [->| ->]; [reflexivity|]. rewrite string_compare_refl. reflexivity.
Qed.

Lemma string_le_trans a b c : string_le a b -> string_le b c -> string_le a c.
Proof.
  rewrite !string_le_lt_or_eq. intros [H1| ->] [H2| ->]; auto.
  left. eapply string_lt_trans; eauto.
Qed.

Lemma insert_perm x l : Permutation (x :: l) (insert x l).
Proof.
  induction l as [|y l IH]; simpl; [reflexivity|].
  destruct (x <=? y)%string; [reflexivity|].
  rewrite perm_swap. constructor. exact IH.
Qed.

Lemma sorted_perm l : Permutation l (sorted l).
Proof.
  induction l as [|x l IH]; simpl; [constructor|].
  rewrite <- insert_perm. constructor. exact IH.
Qed.

Lemma insert_Sorted x l : Sorted string_le l -> Sorted string_le (insert x l).
Proof.
  induction 1 as [|y l Hs IH Hhd]; simpl.
  - repeat constructor.
  - destruct (x <=? y)%string eqn:E.
    + constructor; [constructor; assumption|]. constructor. exact E.
    + constructor; [exact IH|].
      assert (Hyx : string_le y x).
      { destruct (String.leb_total x y) as [H|H]; [congruence|exact H]. }
      destruct Hhd as [|z l Hyz]; simpl.
      * constructor. exact Hyx.
      * destruct (x <=? z)%string; constructor; assumption.
Qed.

Lemma sorted_Sorted l : Sorted string_le (sorted l).
Proof.
  induction l as [|x l IH]; simpl; [constructor|]. apply insert_Sorted, IH.
Qed.

(** A listing without repeated paths is sorted into a strictly increasing
    list. *)
Lemma sorted_strict l : NoDup l -> StronglySorted string_lt (sorted l).
Proof.
  intros Hnd.
  assert (Hnd' : NoDup (sorted l))
    by (eapply Permutation_NoDup; [apply sorted_perm|exact Hnd]).
  assert (Hs : StronglySorted string_le (sorted l)).
  { apply Sorted_StronglySorted; [|apply sorted_Sorted].
    intros a b c. apply string_le_trans. }
  clear Hnd. induction Hs as [|x l' Hs IH Hall]; [constructor|].
  inversion Hnd' as [|? ? Hnotin Hnd'']; subst.
  constructor; [apply IH, Hnd''|].
  rewrite Forall_forall in *. intros y Hy.
  destruct (proj1 (string_le_lt_or_eq x y) (Hall y Hy)) as [H| ->];
    [exact H|contradiction].
Qed.

Lemma firstn_In {A} (y : A) n : forall l, In y (firstn n l) -> In y l.
Proof.
  induction n as [|n IH]; intros [|x l]; simpl; try tauto.
  intros [H|H]; [left; exact H|right; apply IH, H].
Qed.

Lemma StronglySorted_firstn {A} (R : A -> A -> Prop) n : forall l,
  StronglySorted R l -> StronglySorted R (firstn n l).
Proof.
  induction n as [|n IH]; intros l Hs; [constructor|].
  destruct Hs as [|x l Hs Hall]; simpl; [constructor|].
  constructor; [apply IH, Hs|].
  rewrite Forall_forall in *. intros y Hy. apply Hall.
  eapply firstn_In; eauto.
Qed.

Lemma map_fst_combine {A B} (l : list A) : forall (l' : list B),
  map fst (combine l l') = firstn (length l') l.
Proof.
  induction l as [|x l IH]; intros [|y l']; simpl; try reflexivity.
  rewrite IH. reflexivity.
Qed.

Lemma map_snd_combine {A B} (l : list A) : forall (l' : list B),
  map snd (combine l l') = firstn (length l) l'.
Proof.
  induction l as [|x l IH]; intros [|y l']; simpl; try reflexivity.
  rewrite IH. reflexivity.
Qed.

Section CsfFacts.
Context {W : World}.

(** ** The monad *)

Lemma bind_ok_eq {A B} (m : M A) (f : A -> M B) t a :
  m = (t, Ok a) -> bind m f = (t ++ fst (f a), snd (f a)).
Proof. intros ->. unfold bind. destruct (f a); reflexivity. Qed.

Lemma bind_err_eq {A B} (m : M A) (f : A -> M B) t e :
  m = (t, Err e) -> bind m f = (t, Err e).
Proof. intros ->. reflexivity. Qed.

Lemma bind_emit {B} (e : event) (f : unit -> M B) :
  bind (emit e) f = (e :: fst (f tt), snd (f tt)).
Proof. unfold bind, emit. destruct (f tt); reflexivity. Qed.

Lemma bind_ret {A B} (a : A) (f : A -> M B) : bind (ret a) f = f a.
Proof. unfold bind, ret. destruct (f a); reflexivity. Qed.

(** ** Comparisons on [Q] *)

Lemma Qlt_bool_iff x y : Qlt_bool x y = true <-> x < y.
Proof.
  unfold Qlt_bool. rewrite negb_true_iff. split; intro H.
  - apply Qnot_le_lt. intro Hle. apply Qle_bool_iff in Hle. congruence.
  - destruct (Qle_bool y x) eqn:E; [|reflexivity].
    apply Qle_bool_iff in E. exfalso. exact (Qlt_not_le _ _ H E).
Qed.



(** ** [np.argmin] *)

Lemma argmin_scan_lt l : forall i mp k,
  (k < i)%nat -> (argmin_scan l i mp k < i + length l)%nat.
Proof.
  induction l as [|[x|] l IH]; intros i mp k Hk; simpl.
  - lia.
  - destruct (Qle_bool mp x).
    + specialize (IH (S i) mp k). lia.
    + specialize (IH (S i) x i). lia.
  - lia.
Qed.

Lemma np_argmin_lt l :
  l <> [] -> exists c, np_argmin l = Ok c /\ (c < length l)%nat.
Proof.
  destruct l as [|[x|] l]; intros H; [congruence| |].
  - eexists; split; [reflexivity|].
    pose proof (argmin_scan_lt l 1 x 0). simpl. lia.
  - exists 0%nat. split; [reflexivity|simpl; lia].
Qed.



(** ** [csf_mask] *)

Lemma to_antspy_cases (img brain_mask : image) a m :
  snd (to_antspy img brain_mask) = Ok (Ants a, m) ->
  (exists i b, img = Nib i /\ brain_mask = Nib b /\
     a = from_nibabel i /\ m = Ants (from_nibabel b) /\
     fst (to_antspy img brain_mask) = [EvFromNibabel i; EvFromNibabel b]) \/
  (img = Ants a /\ brain_mask = m /\ fst (to_antspy img brain_mask) = []).
Proof.
  destruct img as [i|a'|]; destruct brain_mask as [b|b|]; simpl; intros H;
    try discriminate; try (injection H as <- <-; right; auto; fail).
  injection H as <- <-. left. eauto 10.
Qed.

Lemma csf_mask_run (img brain_mask : image) a m th rp mrf :
  snd (to_antspy img brain_mask) = Ok (Ants a, m) ->
  kmeans_segmentation a 3 m mrf <> [] ->
  exists c p,
    np_argmin (avg_intensity a (kmeans_segmentation a 3 m mrf)) = Ok c /\
    nth_error (kmeans_segmentation a 3 m mrf) c = Some p /\
    csf_mask img brain_mask th rp mrf =
      (fst (to_antspy img brain_mask) ++ [EvKmeans a 3 m mrf],
       Ok (if rp then numpy p else gt_astype_float (numpy p) th)).
Proof.
  intros Hconv Hne.
  destruct (np_argmin_lt (avg_intensity a (kmeans_segmentation a 3 m mrf)))
    as (c & Hc & Hlt).
  { unfold avg_intensity. intro E. apply map_eq_nil in E. contradiction. }
  unfold avg_intensity in Hlt. rewrite length_map in Hlt.
  destruct (nth_error (kmeans_segmentation a 3 m mrf) c) as [p|] eqn:Hp;
    [|apply nth_error_None in Hp; lia].
  exists c, p. repeat split; auto.
  unfold csf_mask.
  destruct (to_antspy img brain_mask) as [t0 r]. cbn [fst snd] in *. subst r.
  unfold call_kmeans, emit, ret, raise, lift, bind. cbn [fst snd app].
  rewrite Hc, Hp. destruct rp; reflexivity.
Qed.

Lemma class_voxels_spec (p : ANTsImage) v :
  In v (class_voxels p) <-> In v voxels /\ 1 # 2 < numpy p v.
Proof.
  unfold class_voxels. rewrite filter_In, Qlt_bool_iff. reflexivity.
Qed.

Lemma avg_intensity_defined (a : ANTsImage) probs :
  (forall p, In p probs -> class_voxels p <> []) ->
  avg_intensity a probs = map Some (map (class_mean a) probs).
Proof.
  intros H. unfold avg_intensity. rewrite map_map. apply map_ext_in.
  intros p Hp. specialize (H p Hp).
  unfold bool_index, class_mean, len. fold (class_voxels p).
  destruct (class_voxels p) as [|v l]; [congruence|]. reflexivity.
Qed.



(** C6, as the code has it. Given both as nibabel images, the image and the
    brain mask are both converted with [ants.from_nibabel] before the
    segmentation is called, and the segmentation receives the converted
    images; given both as ANTs images, they are in the representation the
    segmentation needs and reach it as they are. *)
Theorem C6_conversion_when_both_are_nibabel :
  (forall (i b : Nifti1Image) csf_thresh return_prob mrf,
     fst (csf_mask (Nib i) (Nib b) csf_thresh return_prob mrf) =
       [EvFromNibabel i; EvFromNibabel b;
        EvKmeans (from_nibabel i) 3 (Ants (from_nibabel b)) mrf]) /\
  (forall (a b : ANTsImage) csf_thresh return_prob mrf,
     fst (csf_mask (Ants a) (Ants b) csf_thresh return_prob mrf) =
       [EvKmeans a 3 (Ants b) mrf]).
Proof.
  split; intros;
    unfold csf_mask, to_antspy, ants_from_nibabel, call_kmeans, emit, ret, raise, lift, bind;
    cbn [fst snd app has_get_data andb];
    match goal with
    | |- context [np_argmin ?l] => destruct (np_argmin l) as [c|e]; [|reflexivity]
    end;
    match goal with
    | |- context [nth_error ?l ?c] => destruct (nth_error l c); [|reflexivity]
    end;
    destruct return_prob; reflexivity.
Qed.

(** The guard of line 47 asks both inputs for [get_data]: with one nibabel
    and one ANTs input nothing is converted. *)
Remark csf_mask_mixed_inputs :
  (forall (a : ANTsImage) (b : Nifti1Image) csf_thresh return_prob mrf,
     fst (csf_mask (Ants a) (Nib b) csf_thresh return_prob mrf) =
       [EvKmeans a 3 (Nib b) mrf]) /\
  (forall (i : Nifti1Image) (b : ANTsImage) csf_thresh return_prob mrf,
     csf_mask (Nib i) (Ants b) csf_thresh return_prob mrf = ([], Err AttributeError)).
Proof.
  split; intros; [|reflexivity].
  unfold csf_mask, to_antspy, ants_from_nibabel, call_kmeans, emit, ret, raise, lift, bind.
  cbn [fst snd app has_get_data andb].
  destruct (np_argmin _) as [c|e]; [|reflexivity].
  destruct (nth_error _ c); [|reflexivity].
  destruct return_prob; reflexivity.
Qed.

(** ** Validation and listing *)

Lemma prob_in_range_iff prob : prob_in_range prob = true <-> 0 <= prob /\ prob <= 1.
Proof.
  unfold prob_in_range. rewrite andb_true_iff, !Qle_bool_iff. reflexivity.
Qed.

Lemma bind_no_validation_error {A B} (m : M A) (f : A -> M B) :
  no_validation_error (snd m) ->
  (forall a, no_validation_error (snd (f a))) ->
  no_validation_error (snd (bind m f)).
Proof.
  intros Hm Hf. destruct m as [t [a|e]]; unfold bind.
  - specialize (Hf a). destruct (f a). exact Hf.
  - intros q Hq. apply (Hm q). cbn in *. injection Hq as ->. reflexivity.
Qed.

Lemma csf_mask_no_validation_error (img brain_mask : image) th rp mrf :
  no_validation_error (snd (csf_mask img brain_mask th rp mrf)).
Proof.
  unfold csf_mask. apply bind_no_validation_error.
  - destruct img, brain_mask; intros q; discriminate.
  - intros ib. apply bind_no_validation_error.
    + destruct (fst ib); intros q; discriminate.
    + intros res. apply bind_no_validation_error.
      * unfold lift, np_argmin. cbn [snd].
        destruct (avg_intensity (fst res) (snd res)) as [|[x|] l]; intros q; discriminate.
      * intros c. destruct (nth_error (snd res) c); [|intros q; discriminate].
        destruct rp; intros q; discriminate.
Qed.

Lemma csf_loop_no_validation_error total : forall pairs i acc,
  no_validation_error (snd (csf_loop total i pairs acc)).
Proof.
  induction pairs as [|[img mask] rest IH]; intros i acc; cbn [csf_loop].
  - intros q; discriminate.
  - destruct (split_filename img) as [[d b] e].
    apply bind_no_validation_error; [intros q; discriminate|]. intros _.
    apply bind_no_validation_error; [intros q; discriminate|]. intros imgn.
    apply bind_no_validation_error; [destruct mask; intros q; discriminate|].
    intros maskn. apply bind_no_validation_error.
    + apply csf_mask_no_validation_error.
    + intros c. apply IH.
Qed.

Lemma glob_sorted_run dir :
  glob_sorted dir = ([EvGlob (os_path_join dir "*.nii*")], Ok (image_list dir)).
Proof. reflexivity. Qed.

Lemma mask_list_run masks (data : list string) :
  match masks with
  | MasksDir d => bind (glob_sorted d) (fun l => ret (map MaskPath l))
  | MasksObj m => ret (repeat (MaskObj m) (length data))
  end =
  (match masks with MasksDir d => [EvGlob (os_path_join d "*.nii*")] | MasksObj _ => [] end,
   Ok (mask_list masks data)).
Proof. destruct masks; reflexivity. Qed.

(** C2. A [prob] outside [0, 1] ends the call with [NormalizationError]
    and an empty trace: no directory has been listed and no image or mask
    has been read. A [prob] inside [0, 1] never ends the call with that
    error. *)
Theorem C2_prob_is_validated_before_any_file_access
  (img_dir : string) (masks : masks_arg) (prob : Q) :
  (~ (0 <= prob /\ prob <= 1) ->
   csf_mask_intersection img_dir masks prob = ([], Err (NormalizationError prob))) /\
  (0 <= prob /\ prob <= 1 ->
   forall q, snd (csf_mask_intersection img_dir masks prob) <> Err (NormalizationError q)).
Proof.
  unfold csf_mask_intersection. split; intros H.
  - destruct (prob_in_range prob) eqn:E; [|reflexivity].
    apply prob_in_range_iff in E. contradiction.
  - apply prob_in_range_iff in H. rewrite H. cbn [negb].
    apply bind_no_validation_error; [intros q; discriminate|]. intros data.
    apply bind_no_validation_error; [destruct masks; intros q; discriminate|].
    intros ms. apply bind_no_validation_error.
    + apply csf_loop_no_validation_error.
    + intros csf. apply bind_no_validation_error.
      * destruct csf; intros q; discriminate.
      * intros s q. discriminate.
Qed.

(** C10. When no file of the image directory matches [*.nii*] and [prob]
    has passed the validation, the call lists the directories, finds nothing
    to reduce, and ends with the [TypeError] of [reduce] on an empty list:
    no mask is returned. *)
Theorem C10_empty_cohort_raises
  (img_dir : string) (masks : masks_arg) (prob : Q) :
  0 <= prob /\ prob <= 1 ->
  glob (os_path_join img_dir "*.nii*") = [] ->
  csf_mask_intersection img_dir masks prob =
    (listing_trace img_dir masks, Err TypeError).
Proof.
  intros Hprob Hglob. apply prob_in_range_iff in Hprob.
  unfold csf_mask_intersection. rewrite Hprob. cbn [negb].
  erewrite bind_ok_eq by apply glob_sorted_run.
  erewrite bind_ok_eq by apply mask_list_run.
  unfold image_list. rewrite Hglob. cbn [sorted fold_right combine csf_loop].
  unfold listing_trace. destruct masks; reflexivity.
Qed.

(** ** Votes *)

Lemma len_cons {A} (x : A) l : len (x :: l) == 1 + len l.
Proof.
  unfold len. cbn [length]. rewrite Nat2Z.inj_succ, <- Z.add_1_l, inject_Z_plus.
  reflexivity.
Qed.

Lemma votes_cons (c : ndarray) cs v : votes (c :: cs) v = c v + votes cs v.
Proof. reflexivity. Qed.

Lemma fold_left_add_votes cs : forall c v, fold_left add cs c v == votes (c :: cs) v.
Proof.
  induction cs as [|d cs IH]; intros c v; cbn [fold_left].
  - rewrite votes_cons. change (votes [] v) with 0. lra.
  - rewrite IH, !votes_cons. unfold add. lra.
Qed.

Lemma votes_bounds csf v :
  Forall is_binary csf -> 0 <= votes csf v /\ votes csf v <= len csf.
Proof.
  induction 1 as [|c cs Hc Hcs IH].
  - split; apply Qle_refl.
  - rewrite len_cons, votes_cons. destruct IH as [IH1 IH2].
    destruct (Hc v) as [E|E]; rewrite E; split; lra.
Qed.

Lemma votes_unanimous csf v :
  Forall is_binary csf ->
  (len csf <= votes csf v <-> Forall (fun c => c v = 1) csf).
Proof.
  induction 1 as [|c cs Hc Hcs IH].
  - split; [constructor|]. intros _. apply Qle_refl.
  - pose proof (votes_bounds cs v Hcs) as [_ Hub].
    rewrite len_cons, votes_cons.
    destruct (Hc v) as [E|E]; rewrite E; split.
    + intros H. lra.
    + intros H. inversion H; subst. congruence.
    + intros H. constructor; [exact E|]. apply IH. lra.
    + intros H. inversion H as [|? ? _ Hall]; subst. apply IH in Hall. lra.
Qed.

(** ** The threshold count

    [len(data) * prob] is a product of doubles: the exact product, rounded. *)

Lemma len_nonneg {A} (l : list A) : 0 <= len l.
Proof. unfold len. rewrite <- (Zle_Qle 0). lia. Qed.

Lemma image_list_small img_dir : (Z.of_nat (length (image_list img_dir)) < 2 ^ 53)%Z.
Proof.
  unfold image_list.
  rewrite <- (Permutation_length (sorted_perm _)).
  pose proof (glob_small (os_path_join img_dir "*.nii*")). lia.
Qed.

Lemma fl64_len {A} (l : list A) :
  (Z.of_nat (length l) < 2 ^ 53)%Z -> fl64 (len l) == len l.
Proof. intros H. apply fl64_Z. lia. Qed.

Lemma fl64_scale_zero {A} (l : list A) : fl64 (len l * 0) == 0.
Proof.
  rewrite (round_to_comp 53 (len l * 0) 0) by (lia || ring). reflexivity.
Qed.

Lemma fl64_scale_one {A} (l : list A) prob :
  (Z.of_nat (length l) < 2 ^ 53)%Z -> prob == 1 -> fl64 (len l * prob) == len l.
Proof.
  intros H Hp.
  rewrite (round_to_comp 53 (len l * prob) (len l)) by (lia || (rewrite Hp; ring)).
  apply fl64_len, H.
Qed.

Lemma fl64_scale_mono {A} (l : list A) prob prob' :
  prob <= prob' -> fl64 (len l * prob) <= fl64 (len l * prob').
Proof.
  intros H. apply fl64_mono.
  rewrite (Qmult_comm _ prob), (Qmult_comm _ prob').
  apply Qmult_le_compat_r; [exact H|apply len_nonneg].
Qed.

Lemma fl64_scale_le {A} (l : list A) prob :
  (Z.of_nat (length l) < 2 ^ 53)%Z -> prob <= 1 -> fl64 (len l * prob) <= len l.
Proof.
  intros H Hp. rewrite <- (fl64_scale_one l 1 H) at 2 by reflexivity.
  apply fl64_scale_mono, Hp.
Qed.

Lemma fl64_scale_ge_one {A} (l : list A) prob :
  1 <= len l * prob -> 1 <= fl64 (len l * prob).
Proof. intros H. rewrite <- fl64_1. apply fl64_mono, H. Qed.

(** ** The loop of [csf_mask_intersection]

    From here on the segmentation keeps its contract: asked for three
    classes it returns three probability images. *)

Section ThreeClasses.
Hypothesis kmeans_three :
  forall a m mrf, length (kmeans_segmentation a 3 m mrf) = 3%nat.

Lemma kmeans_nonempty a m mrf : kmeans_segmentation a 3 m mrf <> [].
Proof. intro E. pose proof (kmeans_three a m mrf) as H. rewrite E in H. discriminate. Qed.

Lemma csf_mask_default_run (a : ANTsImage) (m : image) :
  exists p, csf_mask_default (Ants a) m =
    ([EvKmeans a 3 m (1 # 4)], Ok (gt_astype_float (numpy p) (9 # 10))).
Proof.
  destruct (csf_mask_run (Ants a) m a m (9 # 10) false (1 # 4)) as (c & p & _ & _ & H).
  - destruct m; reflexivity.
  - apply kmeans_nonempty.
  - exists p. unfold csf_mask_default. rewrite H. destruct m; reflexivity.
Qed.

Lemma gt_astype_float_binary (a : ndarray) t : is_binary (gt_astype_float a t).
Proof. intro v. unfold gt_astype_float. destruct (Qlt_bool _ (a v)); auto. Qed.

Lemma ants_image_read_run path :
  ants_image_read path = ([EvImageRead path], Ok (image_read path)).
Proof. reflexivity. Qed.

Lemma read_mask_run mask :
  read_mask mask =
    (match mask with MaskPath p => [EvImageRead p] | MaskObj _ => [] end,
     Ok (load_mask mask)).
Proof. destruct mask; reflexivity. Qed.

Lemma csf_loop_run total : forall pairs i acc,
  exists csf,
    computed_masks pairs csf /\ Forall is_binary csf /\
    csf_loop total i pairs acc = (loop_trace total i pairs, Ok (acc ++ csf)).
Proof.
  induction pairs as [|[img mask] rest IH]; intros i acc.
  - exists []. repeat split; try constructor. simpl. rewrite app_nil_r. reflexivity.
  - destruct (csf_mask_default_run (image_read img) (load_mask mask)) as (p & Hp).
    destruct (IH (S i) (acc ++ [gt_astype_float (numpy p) (9 # 10)])) as (csf & Hc & Hb & Hrun).
    exists (gt_astype_float (numpy p) (9 # 10) :: csf). split; [|split].
    + constructor; [|exact Hc]. cbn [fst snd]. rewrite Hp. reflexivity.
    + constructor; [apply gt_astype_float_binary|exact Hb].
    + cbn [csf_loop loop_trace]. unfold base_name.
      destruct (split_filename img) as [[d b] e]. cbn [fst snd].
      rewrite bind_emit.
      erewrite bind_ok_eq by apply ants_image_read_run.
      erewrite bind_ok_eq by apply read_mask_run.
      erewrite bind_ok_eq by exact Hp.
      rewrite Hrun. cbn [fst snd app].
      rewrite <- !app_assoc. reflexivity.
Qed.

Lemma csf_mask_intersection_run img_dir masks prob :
  prob_in_range prob = true ->
  let data := image_list img_dir in
  let pairs := combine data (mask_list masks data) in
  exists csf,
    computed_masks pairs csf /\ Forall is_binary csf /\
    csf_mask_intersection img_dir masks prob =
      (listing_trace img_dir masks ++ loop_trace (length data) 0 pairs,
       match csf with
       | [] => Err TypeError
       | c :: cs =>
           Ok (set_where np_zeros
                 (fun v => Qle_bool (np_floor (fl64 (len data * prob)))
                             (fold_left add cs c v)) 1)
       end).
Proof.
  intros Hprob data pairs.
  destruct (csf_loop_run (length data) pairs 0 []) as (csf & Hc & Hb & Hrun).
  exists csf. split; [exact Hc|]. split; [exact Hb|].
  unfold csf_mask_intersection. rewrite Hprob. cbn [negb].
  erewrite bind_ok_eq by apply glob_sorted_run.
  erewrite bind_ok_eq by apply mask_list_run.
  fold data. fold pairs.
  erewrite bind_ok_eq by exact Hrun.
  cbn [app]. unfold listing_trace.
  destruct csf as [|c cs]; destruct masks; cbn [fst snd lift reduce bind ret app];
    rewrite ?app_nil_r; reflexivity.
Qed.

Lemma set_where_one (b : voxel -> bool) v :
  (set_where np_zeros b 1 v = 1 \/ set_where np_zeros b 1 v = 0) /\
  (set_where np_zeros b 1 v = 1 <-> b v = true).
Proof.
  unfold set_where, np_zeros. destruct (b v); split; auto; split; congruence.
Qed.

Lemma computed_masks_length pairs csf : computed_masks pairs csf -> length csf = length pairs.
Proof. intros H. symmetry. eapply Forall2_length, H. Qed.

(** C1. For a cohort of N images (with a mask for at least one of them, so
    that there is something to sum) and [prob] in [0, 1], the call returns a
    binary array that is 1 at a voxel exactly when the sum over the per-image
    CSF masks at that voxel is at least floor(N * prob), the product being
    the one the program computes: the product of two doubles, rounded to a
    double. When every image has its mask, so that N masks are summed, and
    [prob] is 1, the product is exact and the array is 1 at a voxel exactly
    when all N masks are 1 there. *)
Theorem C1_voxel_is_set_iff_votes_reach_floor
  (img_dir : string) (masks : masks_arg) (prob : Q) :
  0 <= prob /\ prob <= 1 ->
  let data := image_list img_dir in
  let pairs := combine data (mask_list masks data) in
  pairs <> [] ->
  exists csf out,
    computed_masks pairs csf /\ Forall is_binary csf /\
    snd (csf_mask_intersection img_dir masks prob) = Ok out /\
    (forall v, out v = 1 \/ out v = 0) /\
    (forall v, out v = 1 <-> np_floor (fl64 (len data * prob)) <= votes csf v) /\
    ((length data <= length (mask_list masks data))%nat ->
     prob == 1 ->
     length csf = length data /\
     forall v, out v = 1 <-> Forall (fun c => c v = 1) csf).
Proof.
  intros Hprob data pairs Hne. apply prob_in_range_iff in Hprob.
  destruct (csf_mask_intersection_run img_dir masks prob Hprob) as (csf & Hc & Hb & Hrun).
  fold data in Hc, Hrun. fold pairs in Hc, Hrun.
  pose proof (computed_masks_length _ _ Hc) as Hlen.
  destruct csf as [|c cs]; [destruct pairs; [congruence|discriminate]|].
  eexists (c :: cs), _. split; [exact Hc|]. split; [exact Hb|].
  split; [rewrite Hrun; reflexivity|].
  assert (Hiff : forall v,
    set_where np_zeros
      (fun v => Qle_bool (np_floor (fl64 (len data * prob))) (fold_left add cs c v)) 1 v
      = 1 <->
    np_floor (fl64 (len data * prob)) <= votes (c :: cs) v).
  { intros v. rewrite (proj2 (set_where_one _ v)), Qle_bool_iff, fold_left_add_votes.
    reflexivity. }
  split; [intros v; apply set_where_one|]. split; [exact Hiff|].
  intros Hcover Hone.
  assert (HN : length (c :: cs) = length data).
  { rewrite Hlen. unfold pairs. rewrite length_combine. lia. }
  split; [exact HN|]. intros v. rewrite Hiff, <- votes_unanimous by exact Hb.
  assert (Hfl : np_floor (fl64 (len data * prob)) = len (c :: cs)).
  { unfold np_floor, len at 2.
    rewrite (Qfloor_comp _ _ (fl64_scale_one data prob (image_list_small img_dir) Hone)).
    unfold len. rewrite HN, Qfloor_Z. reflexivity. }
  rewrite Hfl. reflexivity.
Qed.

(** C3, as the code has it. For [prob = 0] (and at least one image with its
    mask) the threshold count is floor(0) = 0, which every sum of masks
    reaches: the intersection is 1 at every voxel, also where no image labels
    the voxel CSF. *)
Theorem C3_prob_zero_sets_every_voxel (img_dir : string) (masks : masks_arg) :
  let data := image_list img_dir in
  let pairs := combine data (mask_list masks data) in
  pairs <> [] ->
  exists out,
    snd (csf_mask_intersection img_dir masks 0) = Ok out /\
    forall v, out v = 1.
Proof.
  intros data pairs Hne.
  destruct (csf_mask_intersection_run img_dir masks 0 eq_refl) as (csf & Hc & Hb & Hrun).
  fold data in Hc, Hrun. fold pairs in Hc, Hrun.
  pose proof (computed_masks_length _ _ Hc) as Hlen.
  destruct csf as [|c cs]; [destruct pairs; [congruence|discriminate]|].
  eexists. split; [rewrite Hrun; reflexivity|].
  intros v. apply set_where_one. apply Qle_bool_iff.
  rewrite fold_left_add_votes.
  assert (Hfl : np_floor (fl64 (len data * 0)) = 0).
  { unfold np_floor. rewrite (Qfloor_comp _ _ (fl64_scale_zero data)). reflexivity. }
  rewrite Hfl. apply votes_bounds, Hb.
Qed.

(** ** What the trace of the loop shows *)

Lemma logs_app t1 t2 : logs (t1 ++ t2) = logs t1 ++ logs t2.
Proof. apply flat_map_app. Qed.

Lemma reads_app t1 t2 : reads (t1 ++ t2) = reads t1 ++ reads t2.
Proof. apply flat_map_app. Qed.

Lemma logs_loop_trace total pairs : forall i,
  logs (loop_trace total i pairs) =
    map (fun ki => progress_message (base_name (snd ki)) (fst ki + 1) total)
        (combine (seq i (length pairs)) (map fst pairs)).
Proof.
  induction pairs as [|[img mask] rest IH]; intros i; [reflexivity|].
  cbn [loop_trace length seq map combine fst snd].
  rewrite <- IH. destruct mask; reflexivity.
Qed.

Lemma logs_listing_trace img_dir masks : logs (listing_trace img_dir masks) = [].
Proof. destruct masks; reflexivity. Qed.

Lemma reads_listing_trace img_dir masks : reads (listing_trace img_dir masks) = [].
Proof. destruct masks; reflexivity. Qed.

Lemma reads_loop_trace total (data : list string) : forall ms i,
  reads (loop_trace total i (combine data (map MaskPath ms))) =
    flat_map (fun p => [fst p; snd p]) (combine data ms).
Proof.
  induction data as [|img data IH]; intros [|m ms] i; try reflexivity.
  cbn [map combine loop_trace flat_map fst snd app].
  rewrite <- (IH ms (S i)). reflexivity.
Qed.

Lemma firstn_min {A} (l : list A) n : firstn (Nat.min (length l) n) l = firstn n l.
Proof.
  destruct (Nat.le_ge_cases n (length l)) as [H|H].
  - rewrite Nat.min_r by exact H. reflexivity.
  - rewrite Nat.min_l by exact H. rewrite firstn_all, firstn_all2 by exact H. reflexivity.
Qed.

Lemma combine_truncated {A B} (l : list A) (l' : list B) :
  let k := Nat.min (length l) (length l') in
  combine l l' = combine (firstn k l) (firstn k l').
Proof.
  intros k. rewrite <- combine_firstn. symmetry. apply firstn_all2.
  rewrite length_combine. reflexivity.
Qed.

(** C7, as the code has it. The loop takes the images in strictly increasing
    lexicographic order of their paths (the files of a directory have
    distinct paths). The message of the k-th processed image carries k,
    counted from 1, and the number of image files found in the directory;
    this total is the number of images processed when no image lacks a mask
    (a single mask object, or a mask directory with at least as many files). *)
Theorem C7_progress_position_and_directory_total
  (img_dir : string) (masks : masks_arg) (prob : Q) :
  0 <= prob /\ prob <= 1 ->
  NoDup (glob (os_path_join img_dir "*.nii*")) ->
  let data := image_list img_dir in
  let pairs := combine data (mask_list masks data) in
  let processed := map fst pairs in
  fst (csf_mask_intersection img_dir masks prob) =
    listing_trace img_dir masks ++ loop_trace (length data) 0 pairs /\
  processed = firstn (length (mask_list masks data)) data /\
  StronglySorted string_lt processed /\
  logs (fst (csf_mask_intersection img_dir masks prob)) =
    progress_log (length data) processed /\
  ((length data <= length (mask_list masks data))%nat ->
   length processed = length data).
Proof.
  intros Hprob Hnd data pairs processed. apply prob_in_range_iff in Hprob.
  destruct (csf_mask_intersection_run img_dir masks prob Hprob) as (csf & _ & _ & Hrun).
  fold data in Hrun. fold pairs in Hrun.
  assert (Hproc : processed = firstn (length (mask_list masks data)) data)
    by apply map_fst_combine.
  split; [rewrite Hrun; reflexivity|]. split; [exact Hproc|]. split; [|split].
  - rewrite Hproc. apply StronglySorted_firstn, sorted_strict, Hnd.
  - rewrite Hrun. cbn [fst]. rewrite logs_app, logs_listing_trace, logs_loop_trace.
    unfold progress_log, enumerate, processed. rewrite length_map. reflexivity.
  - intros Hcover. unfold processed, pairs. rewrite length_map, length_combine. lia.
Qed.

(** C9, as the code has it. With a mask directory that lists another number
    of files than the image directory, neither listing being empty, the call
    returns a mask: it reads, pair by pair, the first min(images, masks)
    entries of the two sorted listings and nothing else, and each progress
    message carries the number of images of the directory as its total. *)
Theorem C9_unequal_nonempty_listings_are_truncated
  (img_dir mask_dir : string) (prob : Q) :
  0 <= prob /\ prob <= 1 ->
  let data := image_list img_dir in
  let ms := image_list mask_dir in
  let k := Nat.min (length data) (length ms) in
  data <> [] -> ms <> [] ->
  length data <> length ms ->
  (exists out, snd (csf_mask_intersection img_dir (MasksDir mask_dir) prob) = Ok out) /\
  reads (fst (csf_mask_intersection img_dir (MasksDir mask_dir) prob)) =
    flat_map (fun p => [fst p; snd p]) (combine (firstn k data) (firstn k ms)) /\
  logs (fst (csf_mask_intersection img_dir (MasksDir mask_dir) prob)) =
    progress_log (length data) (firstn k data).
Proof.
  intros Hprob data ms k Hd Hm _. apply prob_in_range_iff in Hprob.
  destruct (csf_mask_intersection_run img_dir (MasksDir mask_dir) prob Hprob)
    as (csf & Hc & _ & Hrun).
  cbn [mask_list] in Hc, Hrun. fold data in Hc, Hrun. fold (image_list mask_dir) in Hc, Hrun.
  fold ms in Hc, Hrun.
  pose proof (computed_masks_length _ _ Hc) as Hlen.
  rewrite length_combine, length_map in Hlen.
  split; [|split].
  - rewrite Hrun. cbn [snd]. destruct csf as [|c cs]; [|eauto].
    destruct data, ms; simpl in Hlen; congruence.
  - rewrite Hrun. cbn [fst]. rewrite reads_app, reads_listing_trace, reads_loop_trace.
    cbn [app]. f_equal. apply combine_truncated.
  - rewrite Hrun. cbn [fst]. rewrite logs_app, logs_listing_trace, logs_loop_trace.
    cbn [app]. unfold progress_log, enumerate.
    rewrite map_fst_combine, !length_map, length_combine, length_map.
    unfold k. rewrite firstn_min, length_firstn.
    rewrite (Nat.min_comm (length ms)). reflexivity.
Qed.

End ThreeClasses.

End CsfFacts.

(** ** The small world *)

Lemma tiny_three_classes :
  forall (a : @ANTsImage tiny) (m : @image tiny) (mrf : Q),
    length (@kmeans_segmentation tiny a 3 m mrf) = 3%nat.
Proof. reflexivity. Qed.

(** The three images of ["imgs"] give the CSF masks [1;1;0;0], [1;0;1;0]
    and [1;0;1;0]. *)
Example tiny_avg_intensity :
  @avg_intensity tiny [0; 1; 4; 9] (tiny_classes [0; 1; 4; 9]) =
    [Some 9; Some (1 # 2); Some 4].
Proof. reflexivity. Qed.

Example tiny_csf_mask :
  option_map (fun out : nat -> Q => map out [0; 1; 2; 3]%nat)
    (match snd (@csf_mask_default tiny (Ants [0; 1; 4; 9]) PyNone) with
     | Ok out => Some out
     | Err _ => None
     end) = Some [1; 1; 0; 0].
Proof. reflexivity. Qed.

Example tiny_trace :
  fst (@csf_mask_intersection tiny "imgs" (MasksDir "masks") 1) =
    [ EvGlob "imgs/*.nii*"; EvGlob "masks/*.nii*";
      EvLogInfo "Creating CSF mask for image imgs/a.nii.gz (1/3)";
      EvImageRead "imgs/a.nii.gz"; EvImageRead "masks/m1.nii";
      EvKmeans (tiny_image [0; 1; 4; 9]) 3 (Ants [1; 1; 1; 1]) (1 # 4);
      EvLogInfo "Creating CSF mask for image imgs/b.nii (2/3)";
      EvImageRead "imgs/b.nii"; EvImageRead "masks/m2.nii";
      EvKmeans (tiny_image [1; 3; 0; 8]) 3 (Ants [1; 1; 1; 1]) (1 # 4) ].
Proof. reflexivity. Qed.

(** A class without a voxel above one half has the mean NaN, and
    [np.argmin] returns the first NaN. *)
Example argmin_of_nan :
  np_argmin (@avg_intensity tiny [0; 7; 1; 6] (tiny_classes [0; 7; 1; 6])) = Ok 2%nat.
Proof. reflexivity. Qed.

(** The double nearest 1/3, times 3, is the double 1.0, and the double
    nearest 0.7, times 10, is 7.0: the exact products are below 1 and 7. *)
Example floor_of_rounded_product :
  Qfloor (fl64 (3 * fl64 (1 # 3))) = 1%Z /\ Qfloor (3 * fl64 (1 # 3)) = 0%Z /\
  Qfloor (fl64 (10 * fl64 (7 # 10))) = 7%Z /\ Qfloor (10 * fl64 (7 # 10)) = 6%Z.
Proof. repeat split; vm_compute; reflexivity. Qed.

(** A membership of float32(0.1) is not above the cutoff 0.1: numpy compares
    it with float32(0.1), although the double 0.1 is below float32(0.1). *)
Example cutoff_is_cast_to_float32 :
  @gt_astype_float tiny (fun _ => fl32 (1 # 10)) (fl64 (1 # 10)) 0%nat = 0 /\
  fl64 (1 # 10) < fl32 (1 # 10).
Proof. split; vm_compute; reflexivity. Qed.

Ltac in_range := split; unfold Qle; simpl; lia.

(** The three images of the small world with [prob] 1/2, with [prob] 1, and
    with [prob] the double nearest 1/3: there the product 3 * prob is the
    double 1.0, one vote is needed, and voxel 3, which has none, is 0. *)
Lemma C1_witness :
  (exists out, snd (@csf_mask_intersection tiny "imgs" (MasksObj PyNone) (1 # 2)) = Ok out /\
     (out 1%nat = 1 <-> 1 <= 1) /\ (out 3%nat = 1 <-> 1 <= 0)) /\
  (exists out, snd (@csf_mask_intersection tiny "imgs" (MasksObj PyNone) 1) = Ok out /\
     out 0%nat = 1) /\
  (exists out, snd (@csf_mask_intersection tiny "imgs" (MasksObj PyNone) (fl64 (1 # 3))) = Ok out /\
     out 3%nat = 0).
Proof.
  split; [|split].
  - destruct (@C1_voxel_is_set_iff_votes_reach_floor tiny tiny_three_classes
                "imgs" (MasksObj PyNone) (1 # 2))
      as (csf & out & Hc & _ & Hout & _ & Hiff & _).
    + in_range.
    + vm_compute. discriminate.
    + exists out. split; [exact Hout|].
      inversion Hc as [|? c1 ? ? H1 Hc1]; subst.
      inversion Hc1 as [|? c2 ? ? H2 Hc2]; subst.
      inversion Hc2 as [|? c3 ? ? H3 Hc3]; subst.
      inversion Hc3; subst.
      vm_compute in H1, H2, H3.
      injection H1 as <-. injection H2 as <-. injection H3 as <-.
      split; [exact (Hiff 1%nat)|exact (Hiff 3%nat)].
  - destruct (@C1_voxel_is_set_iff_votes_reach_floor tiny tiny_three_classes
                "imgs" (MasksObj PyNone) 1)
      as (csf & out & Hc & _ & Hout & _ & _ & Hall).
    + in_range.
    + vm_compute. discriminate.
    + exists out. split; [exact Hout|].
      destruct Hall as [_ Hall]; [vm_compute; lia|reflexivity|].
      apply Hall.
      inversion Hc as [|? c1 ? ? H1 Hc1]; subst.
      inversion Hc1 as [|? c2 ? ? H2 Hc2]; subst.
      inversion Hc2 as [|? c3 ? ? H3 Hc3]; subst.
      inversion Hc3; subst.
      vm_compute in H1, H2, H3.
      injection H1 as <-. injection H2 as <-. injection H3 as <-.
      repeat constructor.
  - destruct (@C1_voxel_is_set_iff_votes_reach_floor tiny tiny_three_classes
                "imgs" (MasksObj PyNone) (fl64 (1 # 3)))
      as (csf & out & Hc & _ & Hout & Hbin & Hiff & _).
    + split; vm_compute; discriminate.
    + vm_compute. discriminate.
    + exists out. split; [exact Hout|].
      destruct (Hbin 3%nat) as [H1|H0]; [|exact H0].
      exfalso. apply Hiff in H1. revert H1.
      inversion Hc as [|? c1 ? ? H1 Hc1]; subst.
      inversion Hc1 as [|? c2 ? ? H2 Hc2]; subst.
      inversion Hc2 as [|? c3 ? ? H3 Hc3]; subst.
      inversion Hc3; subst.
      vm_compute in H1, H2, H3.
      injection H1 as <-. injection H2 as <-. injection H3 as <-.
      vm_compute. intros H. apply H. reflexivity.
Defined.

Lemma C2_witness :
  @csf_mask_intersection tiny "imgs" (MasksDir "masks") (3 # 2) =
    ([], Err (NormalizationError (3 # 2))) /\
  forall q, snd (@csf_mask_intersection tiny "imgs" (MasksDir "masks") (1 # 2)) <>
            Err (NormalizationError q).
Proof.
  split.
  - apply (@C2_prob_is_validated_before_any_file_access tiny "imgs" (MasksDir "masks") (3 # 2)).
    intros [_ H]. revert H. unfold Qle. simpl. lia.
  - apply (@C2_prob_is_validated_before_any_file_access tiny "imgs" (MasksDir "masks") (1 # 2)).
    in_range.
Defined.

Lemma C3_witness :
  exists out, snd (@csf_mask_intersection tiny "imgs" (MasksObj PyNone) 0) = Ok out /\
    forall v, out v = 1.
Proof.
  apply (@C3_prob_zero_sets_every_voxel tiny tiny_three_classes "imgs" (MasksObj PyNone)).
  vm_compute. discriminate.
Defined.

(** At voxel 3 no image of the small world is labelled CSF, and the
    intersection for [prob = 0] is 1 there. *)
Lemma C3_counterexample : ~ @prob_zero_is_union tiny "imgs" (MasksObj PyNone).
Proof.
  intros H.
  destruct (@csf_mask_intersection_run tiny tiny_three_classes "imgs" (MasksObj PyNone) 0 eq_refl)
    as (csf & Hc & _ & Hrun).
  inversion Hc as [|? c1 ? ? H1 Hc1]; subst.
  inversion Hc1 as [|? c2 ? ? H2 Hc2]; subst.
  inversion Hc2 as [|? c3 ? ? H3 Hc3]; subst.
  inversion Hc3; subst.
  specialize (H _ _ Hc (f_equal snd Hrun) 3%nat).
  pose proof (f_equal (fun r : result (@ndarray tiny) =>
                         match r with Ok c => c 3%nat | Err _ => 1 end) H1) as E1.
  pose proof (f_equal (fun r : result (@ndarray tiny) =>
                         match r with Ok c => c 3%nat | Err _ => 1 end) H2) as E2.
  pose proof (f_equal (fun r : result (@ndarray tiny) =>
                         match r with Ok c => c 3%nat | Err _ => 1 end) H3) as E3.
  vm_compute in E1, E2, E3.
  destruct H as [H _]; [simpl; auto|].
  assert (Hex : Exists (fun c : nat -> Q => c 3%nat = 1) [c1; c2; c3]).
  { apply H. cbn [snd]. apply set_where_one.
    cbn [fold_left]. unfold add. rewrite <- E1, <- E2, <- E3. reflexivity. }
  repeat (apply Exists_cons in Hex; destruct Hex as [Hex|Hex];
          [rewrite <- ?E1, <- ?E2, <- ?E3 in Hex; discriminate Hex|]).
  inversion Hex.
Qed.




(** An ANTs image with a nibabel brain mask: the segmentation is called
    with the nibabel mask as it came. *)
Lemma C6_counterexample :
  ~ @both_inputs_reach_segmentation_as_ants tiny (Ants [0; 1; 4; 9]) (Nib [1; 1; 1; 1]).
Proof.
  intros H.
  specialize (H [0; 1; 4; 9] [1; 1; 1; 1] eq_refl eq_refl (9 # 10) false (1 # 4)).
  vm_compute in H. destruct H as [H|[]]. discriminate H.
Qed.

Ltac distinct_paths :=
  vm_compute; repeat (constructor; [simpl; intuition discriminate|]); constructor.

Lemma C7_witness :
  logs (fst (@csf_mask_intersection tiny "imgs" (MasksObj PyNone) 1)) =
    [ "Creating CSF mask for image imgs/a.nii.gz (1/3)";
      "Creating CSF mask for image imgs/b.nii (2/3)";
      "Creating CSF mask for image imgs/c.nii (3/3)" ].
Proof.
  destruct (@C7_progress_position_and_directory_total tiny tiny_three_classes
              "imgs" (MasksObj PyNone) 1) as (_ & _ & _ & Hlog & _).
  - in_range.
  - distinct_paths.
  - exact Hlog.
Defined.

(** Three images and two masks: two images are processed, and the messages
    say "of 3". *)
Lemma C7_counterexample :
  ~ @progress_counts_processed_images tiny "imgs" (MasksDir "masks") 1.
Proof.
  intros [_ H]. vm_compute in H. discriminate H.
Qed.

Lemma C9_witness :
  (exists out, snd (@csf_mask_intersection tiny "imgs" (MasksDir "masks") 1) = Ok out) /\
  reads (fst (@csf_mask_intersection tiny "imgs" (MasksDir "masks") 1)) =
    ["imgs/a.nii.gz"; "masks/m1.nii"; "imgs/b.nii"; "masks/m2.nii"] /\
  logs (fst (@csf_mask_intersection tiny "imgs" (MasksDir "masks") 1)) =
    [ "Creating CSF mask for image imgs/a.nii.gz (1/3)";
      "Creating CSF mask for image imgs/b.nii (2/3)" ].
Proof.
  apply (@C9_unequal_nonempty_listings_are_truncated tiny tiny_three_classes
           "imgs" "masks" 1).
  - in_range.
  - vm_compute. discriminate.
  - vm_compute. discriminate.
  - vm_compute. discriminate.
Defined.

(** Three images and an empty mask directory: the numbers differ, and the
    call ends with the [TypeError] of [reduce]. *)
Lemma C9_counterexample : ~ @unequal_listings_raise_no_error tiny "imgs" "nomasks" 1.
Proof.
  intros H. destruct H as [[out Hout] _].
  - vm_compute. discriminate.
  - vm_compute in Hout. discriminate Hout.
Qed.

Lemma C10_witness :
  @csf_mask_intersection tiny "none" (MasksObj PyNone) 1 =
    ([EvGlob "none/*.nii*"], Err TypeError).
Proof.
  apply (@C10_empty_cohort_raises tiny "none" (MasksObj PyNone) 1).
  - in_range.
  - reflexivity.
Defined.

(** ** The entry point *)

(** C8, as the code has it. [main] returns 0 when [preprocess] completes.
    When [preprocess] raises an instance of [Exception], [main] logs it with
    its traceback and returns 1. An exception outside [Exception]
    ([KeyboardInterrupt], [SystemExit], [GeneratorExit]) leaves [main], and so
    does whatever [parse_args] raises ahead of the [try] statement. *)
Theorem C8_exit_codes_of_main
  (preprocess : string -> string -> string -> Z * Z * Z -> string ->
                option (list (string * string)) -> Preprocess.outcome unit)
  (args : Preprocess.Namespace) :
  let call := preprocess (Preprocess.img_dir args) (Preprocess.mask_dir args)
                (Preprocess.out_dir args) (Preprocess.resolution args)
                (Preprocess.orientation args) (Preprocess.n4_opts args) in
  let lvl := Preprocess.level_of (Preprocess.verbosity args) in
  (call = Preprocess.Returned tt ->
   Preprocess.main preprocess (Preprocess.Returned args) =
     ([Preprocess.BasicConfig lvl], Preprocess.Returned 0%Z)) /\
  (forall e, call = Preprocess.Raised e ->
     Preprocess.isinstance_Exception e = true ->
     Preprocess.main preprocess (Preprocess.Returned args) =
       ([Preprocess.BasicConfig lvl; Preprocess.LoggerException e],
        Preprocess.Returned 1%Z)) /\
  (forall e, call = Preprocess.Raised e ->
     Preprocess.isinstance_Exception e = false ->
     Preprocess.main preprocess (Preprocess.Returned args) =
       ([Preprocess.BasicConfig lvl], Preprocess.Raised e)) /\
  (forall e, Preprocess.main preprocess (Preprocess.Raised e) =
             ([], Preprocess.Raised e)).
Proof.
  intros call lvl. unfold Preprocess.main. fold call. fold lvl.
  repeat split.
  - intros ->. reflexivity.
  - intros e -> ->. reflexivity.
  - intros e -> ->. reflexivity.
Qed.

Lemma C8_witness :
  Preprocess.main Preprocess.succeeding (Preprocess.Returned Preprocess.default_args) =
    ([Preprocess.BasicConfig Preprocess.WARNING], Preprocess.Returned 0%Z) /\
  Preprocess.main Preprocess.failing (Preprocess.Returned Preprocess.default_args) =
    ([Preprocess.BasicConfig Preprocess.WARNING;
      Preprocess.LoggerException (Preprocess.ExceptionInstance "FileNotFoundError" "imgs")],
     Preprocess.Returned 1%Z).
Proof.
  split.
  - apply (C8_exit_codes_of_main Preprocess.succeeding Preprocess.default_args).
    reflexivity.
  - apply (C8_exit_codes_of_main Preprocess.failing Preprocess.default_args);
      reflexivity.
Defined.

(** The user interrupts [preprocess]: [KeyboardInterrupt] is not an
    [Exception], nothing is logged and no exit code is returned. *)
Lemma C8_counterexample :
  ~ Preprocess.every_exception_becomes_exit_code_1 Preprocess.interrupted
      Preprocess.default_args.
Proof.
  intros (_ & _ & H). apply (H Preprocess.KeyboardInterrupt). reflexivity.
Qed.

(** * Further properties of the code *)

Section CsfMaskFacts.
Context {W : World}.

(** ** [csf_mask]: errors *)

Lemma csf_mask_empty_segmentation (img brain_mask : image) a m th rp mrf :
  snd (to_antspy img brain_mask) = Ok (Ants a, m) ->
  kmeans_segmentation a 3 m mrf = [] ->
  csf_mask img brain_mask th rp mrf =
    (fst (to_antspy img brain_mask) ++ [EvKmeans a 3 m mrf], Err ValueError).
Proof.
  intros Hconv Hnil. unfold csf_mask.
  destruct (to_antspy img brain_mask) as [t0 r]. cbn [fst snd] in *. subst r.
  unfold call_kmeans, emit, ret, raise, lift, bind. cbn [fst snd app].
  rewrite Hnil. reflexivity.
Qed.

Lemma to_antspy_total (img brain_mask : image) :
  (exists a m, snd (to_antspy img brain_mask) = Ok (Ants a, m)) \/
  ((img = PyNone \/ exists i, img = Nib i /\ has_get_data brain_mask = false) /\
   csf_mask_default img brain_mask = ([], Err AttributeError) /\
   forall th rp mrf, csf_mask img brain_mask th rp mrf = ([], Err AttributeError)).
Proof.
  destruct img as [i|a|]; destruct brain_mask as [b|b|];
    try (left; eexists _, _; reflexivity);
    right; (split; [|split; [reflexivity|intros; reflexivity]]); eauto.
Qed.

(** X1. When the image is [None], or is a nibabel image whose brain mask
    is not one, the guard of line 47 converts nothing and line 50 finds no
    [kmeans_segmentation] on the image: [csf_mask] ends with
    [AttributeError] before any library call, nothing has been converted
    and no segmentation has run. *)
Theorem csf_mask_attribute_error_before_any_call
  (img brain_mask : image) (csf_thresh : Q) (return_prob : bool) (mrf : Q) :
  img = PyNone \/ (exists i, img = Nib i /\ has_get_data brain_mask = false) ->
  csf_mask img brain_mask csf_thresh return_prob mrf = ([], Err AttributeError).
Proof.
  intros H.
  destruct (to_antspy_total img brain_mask) as [(a & m & Hconv)|(_ & _ & Herr)].
  - exfalso. destruct H as [->|(i & -> & Hb)]; [discriminate Hconv|].
    destruct brain_mask; discriminate.
  - apply Herr.
Qed.

(** X2. On inputs that reach the segmentation, [csf_mask] ends with
    [ValueError] (the [np.argmin] of an empty list) exactly when the
    segmentation returns no probability image, and otherwise returns an
    array. The index [np.argmin] returns is always in range: the call never
    ends with [IndexError], nor with [TypeError]. *)
Theorem csf_mask_value_error_iff
  (img brain_mask : image) (csf_thresh : Q) (return_prob : bool) (mrf : Q) :
  (forall a m, snd (to_antspy img brain_mask) = Ok (Ants a, m) ->
     (snd (csf_mask img brain_mask csf_thresh return_prob mrf) = Err ValueError <->
      kmeans_segmentation a 3 m mrf = []) /\
     (kmeans_segmentation a 3 m mrf <> [] ->
      exists out, snd (csf_mask img brain_mask csf_thresh return_prob mrf) = Ok out)) /\
  snd (csf_mask img brain_mask csf_thresh return_prob mrf) <> Err IndexError /\
  snd (csf_mask img brain_mask csf_thresh return_prob mrf) <> Err TypeError.
Proof.
  assert (Hcases : forall a m, snd (to_antspy img brain_mask) = Ok (Ants a, m) ->
    (kmeans_segmentation a 3 m mrf = [] /\
     snd (csf_mask img brain_mask csf_thresh return_prob mrf) = Err ValueError) \/
    (kmeans_segmentation a 3 m mrf <> [] /\
     exists out, snd (csf_mask img brain_mask csf_thresh return_prob mrf) = Ok out)).
  { intros a m Hconv. destruct (kmeans_segmentation a 3 m mrf) eqn:E.
    - left. split; [reflexivity|].
      rewrite (csf_mask_empty_segmentation _ _ a m) by assumption. reflexivity.
    - right. split; [discriminate|].
      destruct (csf_mask_run img brain_mask a m csf_thresh return_prob mrf Hconv)
        as (c & p & _ & _ & Hrun); [congruence|]. rewrite Hrun.
      eexists. reflexivity. }
  split; [|split].
  - intros a m Hconv.
    destruct (Hcases a m Hconv) as [[Hnil Herr]|[Hne (out & Hout)]].
    + split; [tauto|contradiction].
    + split; [|eauto]. rewrite Hout. split; [discriminate|contradiction].
  - destruct (to_antspy_total img brain_mask) as [(a & m & Hconv)|(_ & _ & Herr)].
    + destruct (Hcases a m Hconv) as [[_ ->]|[_ (out & ->)]]; discriminate.
    + rewrite Herr. discriminate.
  - destruct (to_antspy_total img brain_mask) as [(a & m & Hconv)|(_ & _ & Herr)].
    + destruct (Hcases a m Hconv) as [[_ ->]|[_ (out & ->)]]; discriminate.
    + rewrite Herr. discriminate.
Qed.

(** ** [csf_mask]: how the options compose *)

(** X3. Two nibabel images give the array that their conversions give:
    [csf_mask(img, mask)] and
    [csf_mask(ants.from_nibabel(img), ants.from_nibabel(mask))] return the
    same value or raise the same error, whatever the other arguments. *)
Theorem csf_mask_nibabel_as_converted
  (i b : Nifti1Image) (csf_thresh : Q) (return_prob : bool) (mrf : Q) :
  snd (csf_mask (Nib i) (Nib b) csf_thresh return_prob mrf) =
  snd (csf_mask (Ants (from_nibabel i)) (Ants (from_nibabel b))
         csf_thresh return_prob mrf).
Proof.
  unfold csf_mask, to_antspy, ants_from_nibabel, call_kmeans, emit, ret, raise, lift, bind.
  cbn [fst snd app has_get_data andb].
  destruct (np_argmin _) as [c|e]; [|reflexivity].
  destruct (nth_error _ c); [|reflexivity].
  destruct return_prob; reflexivity.
Qed.


(** ** [csf_mask]: a class that owns no voxel *)

Lemma argmin_scan_first_nan (l : list Q) rest : forall i mp k,
  argmin_scan (map Some l ++ None :: rest) i mp k = (i + length l)%nat.
Proof.
  induction l as [|x l IH]; intros i mp k; cbn [map app argmin_scan length].
  - lia.
  - destruct (Qle_bool mp x); rewrite IH; lia.
Qed.

Lemma np_argmin_first_nan (l : list Q) rest :
  np_argmin (map Some l ++ None :: rest) = Ok (length l).
Proof.
  destruct l as [|x l]; [reflexivity|].
  cbn [map app np_argmin length]. rewrite argmin_scan_first_nan. reflexivity.
Qed.

(** X5. When some class owns no voxel (no membership above 0.5 on the
    grid), its mean is the NaN of an empty selection and [np.argmin]
    returns the first such class, whatever the means of the others: that
    class is returned as CSF, and for a cutoff of at least 0.5 the binary
    mask is 0 on the whole grid. *)
Theorem csf_mask_designates_first_empty_class
  (img brain_mask : image) (csf_thresh mrf : Q) (a : ANTsImage) (m : image)
  (before after : list ANTsImage) (p : ANTsImage) :
  snd (to_antspy img brain_mask) = Ok (Ants a, m) ->
  kmeans_segmentation a 3 m mrf = before ++ p :: after ->
  (forall q, In q before -> class_voxels q <> []) ->
  class_voxels p = [] ->
  np_argmin (avg_intensity a (kmeans_segmentation a 3 m mrf)) = Ok (length before) /\
  snd (csf_mask img brain_mask csf_thresh true mrf) = Ok (numpy p) /\
  exists out,
    snd (csf_mask img brain_mask csf_thresh false mrf) = Ok out /\
    (1 # 2 <= csf_thresh -> forall v, In v voxels -> out v = 0).
Proof.
  intros Hconv Hseg Hbefore Hempty.
  assert (Harg : np_argmin (avg_intensity a (kmeans_segmentation a 3 m mrf))
                 = Ok (length before)).
  { rewrite Hseg. unfold avg_intensity. rewrite map_app. cbn [map].
    fold (avg_intensity a before). rewrite (avg_intensity_defined a before Hbefore).
    unfold bool_index. fold (class_voxels p). rewrite Hempty. cbn [map np_mean].
    rewrite np_argmin_first_nan, !length_map. reflexivity. }
  assert (Hne : kmeans_segmentation a 3 m mrf <> [])
    by (rewrite Hseg; destruct before; discriminate).
  assert (Hnth : nth_error (kmeans_segmentation a 3 m mrf) (length before) = Some p).
  { rewrite Hseg, nth_error_app2, Nat.sub_diag by lia. reflexivity. }
  split; [exact Harg|].
  destruct (csf_mask_run img brain_mask a m csf_thresh true mrf Hconv Hne)
    as (c & p' & Hc & Hp & Hraw).
  destruct (csf_mask_run img brain_mask a m csf_thresh false mrf Hconv Hne)
    as (c2 & p2 & Hc2 & Hp2 & Hbin).
  assert (c = length before) by congruence. assert (c2 = length before) by congruence.
  subst. assert (p' = p) by congruence. assert (p2 = p) by congruence. subst.
  split; [rewrite Hraw; reflexivity|].
  eexists. split; [rewrite Hbin; reflexivity|].
  intros Hth v Hv. unfold gt_astype_float.
  destruct (Qlt_bool (fl32 csf_thresh) (numpy p v)) eqn:E; [|reflexivity].
  apply Qlt_bool_iff in E.
  assert (Hin : In v (class_voxels p)).
  { apply class_voxels_spec. split; [exact Hv|].
    eapply Qle_lt_trans; [|exact E]. rewrite <- fl32_half. apply fl32_mono, Hth. }
  rewrite Hempty in Hin. contradiction.
Qed.

End CsfMaskFacts.

Section IntersectionFacts.
Context {W : World}.
Hypothesis kmeans_three :
  forall a m mrf, length (kmeans_segmentation a 3 m mrf) = 3%nat.

(** ** [csf_mask_intersection]: when it returns, and what *)

Lemma computed_masks_functional pairs : forall csf csf',
  computed_masks pairs csf -> computed_masks pairs csf' -> csf = csf'.
Proof.
  induction pairs as [|pr pairs IH]; intros csf csf' H H';
    inversion H; inversion H'; subst; [reflexivity|].
  f_equal; [congruence|]. apply IH; assumption.
Qed.

Lemma combine_nil_iff {A B} (l : list A) (l' : list B) :
  combine l l' = [] <-> l = [] \/ l' = [].
Proof.
  destruct l, l'; simpl; split; intros H; auto; try discriminate.
  destruct H; discriminate.
Qed.

(** The result of a call with a valid [prob], by cases on the pairs. *)
Lemma csf_mask_intersection_result img_dir masks prob :
  0 <= prob /\ prob <= 1 ->
  let data := image_list img_dir in
  let pairs := combine data (mask_list masks data) in
  exists csf,
    computed_masks pairs csf /\ Forall is_binary csf /\
    ((pairs = [] /\ snd (csf_mask_intersection img_dir masks prob) = Err TypeError) \/
     (pairs <> [] /\
      exists out, snd (csf_mask_intersection img_dir masks prob) = Ok out /\
        forall v, (out v = 1 \/ out v = 0) /\
                  (out v = 1 <-> np_floor (fl64 (len data * prob)) <= votes csf v))).
Proof.
  intros Hprob data pairs. apply prob_in_range_iff in Hprob.
  destruct (csf_mask_intersection_run kmeans_three img_dir masks prob Hprob)
    as (csf & Hc & Hb & Hrun).
  fold data in Hc, Hrun. fold pairs in Hc, Hrun.
  pose proof (computed_masks_length _ _ Hc) as Hlen.
  exists csf. split; [exact Hc|]. split; [exact Hb|].
  destruct csf as [|c cs].
  - left. split; [destruct pairs; [reflexivity|discriminate]|].
    rewrite Hrun. reflexivity.
  - right. split; [destruct pairs; [discriminate|congruence]|].
    eexists. split; [rewrite Hrun; reflexivity|].
    intros v. split; [apply set_where_one|].
    rewrite (proj2 (set_where_one _ v)), Qle_bool_iff, fold_left_add_votes.
    reflexivity.
Qed.

(** X6. With [prob] in [0, 1], the call returns a mask exactly when both
    the sorted image listing and the list of masks are non-empty; in every
    other case it ends with the [TypeError] of [reduce] on an empty list,
    and with no other error. *)
Theorem csf_mask_intersection_returns_iff_pairs
  (img_dir : string) (masks : masks_arg) (prob : Q) :
  0 <= prob /\ prob <= 1 ->
  let data := image_list img_dir in
  ((exists out, snd (csf_mask_intersection img_dir masks prob) = Ok out) <->
   data <> [] /\ mask_list masks data <> []) /\
  (snd (csf_mask_intersection img_dir masks prob) = Err TypeError <->
   data = [] \/ mask_list masks data = []) /\
  (forall e, snd (csf_mask_intersection img_dir masks prob) = Err e -> e = TypeError).
Proof.
  intros Hprob data.
  destruct (csf_mask_intersection_result img_dir masks prob Hprob)
    as (csf & _ & _ & [[Hnil Herr]|[Hne (out & Hout & _)]]);
    fold data in Hnil || fold data in Hne.
  - apply combine_nil_iff in Hnil. rewrite Herr.
    split; [|split].
    + split; [intros [out H]; discriminate|].
      intros [H1 H2]. destruct Hnil; contradiction.
    + tauto.
    + intros e H. congruence.
  - rewrite combine_nil_iff in Hne. rewrite Hout.
    split; [|split].
    + split; [|eauto]. intros _. split; intros E; apply Hne; auto.
    + split; [discriminate|]. intros H. contradiction.
    + intros e H. discriminate.
Qed.

(** X7. Where every image of the cohort has its mask and all N per-image
    CSF masks are 1 at a voxel, the intersection is 1 at that voxel for
    every [prob] in [0, 1]. *)
Theorem csf_mask_intersection_keeps_unanimous_voxels
  (img_dir : string) (masks : masks_arg) (prob : Q) :
  0 <= prob /\ prob <= 1 ->
  let data := image_list img_dir in
  let pairs := combine data (mask_list masks data) in
  data <> [] ->
  (length data <= length (mask_list masks data))%nat ->
  exists csf out,
    computed_masks pairs csf /\ length csf = length data /\
    snd (csf_mask_intersection img_dir masks prob) = Ok out /\
    forall v, Forall (fun c => c v = 1) csf -> out v = 1.
Proof.
  intros Hprob data pairs Hdata Hcover.
  assert (Hlenp : length pairs = length data)
    by (unfold pairs; rewrite length_combine; lia).
  destruct (csf_mask_intersection_result img_dir masks prob Hprob)
    as (csf & Hc & Hb & [[Hnil _]|[_ (out & Hout & Hspec)]]);
    fold data in Hc, Hcover |- *; fold pairs in Hc |- *.
  - fold data in Hnil. fold pairs in Hnil. rewrite Hnil in Hlenp.
    destruct data; [congruence|discriminate].
  - fold data in Hspec.
    pose proof (computed_masks_length _ _ Hc) as Hlen.
    exists csf, out. split; [exact Hc|]. split; [congruence|]. split; [exact Hout|].
    intros v Hall. apply Hspec.
    apply (votes_unanimous csf v Hb) in Hall.
    eapply Qle_trans; [|exact Hall].
    assert (Hl : len csf = len data) by (unfold len; congruence).
    rewrite Hl. unfold np_floor.
    eapply Qle_trans; [apply Qfloor_le|].
    apply fl64_scale_le; [apply image_list_small|apply Hprob].
Qed.

(** X8. The intersection shrinks as [prob] grows: for
    [prob <= prob'] in [0, 1], a voxel set in the mask for [prob'] is set in
    the mask for [prob]. *)
Theorem csf_mask_intersection_shrinks_with_prob
  (img_dir : string) (masks : masks_arg) (prob prob' : Q) :
  0 <= prob -> prob <= prob' -> prob' <= 1 ->
  let data := image_list img_dir in
  combine data (mask_list masks data) <> [] ->
  exists out out',
    snd (csf_mask_intersection img_dir masks prob) = Ok out /\
    snd (csf_mask_intersection img_dir masks prob') = Ok out' /\
    forall v, out' v = 1 -> out v = 1.
Proof.
  intros H0 Hle H1 data Hne.
  assert (Hp : 0 <= prob /\ prob <= 1) by (split; [|eapply Qle_trans]; eassumption).
  assert (Hp' : 0 <= prob' /\ prob' <= 1) by (split; [eapply Qle_trans|]; eassumption).
  destruct (csf_mask_intersection_result img_dir masks prob Hp)
    as (csf & Hc & _ & [[Hnil _]|[_ (out & Hout & Hspec)]]); [contradiction|].
  destruct (csf_mask_intersection_result img_dir masks prob' Hp')
    as (csf' & Hc' & _ & [[Hnil _]|[_ (out' & Hout' & Hspec')]]); [contradiction|].
  pose proof (computed_masks_functional _ _ _ Hc Hc'). subst csf'.
  exists out, out'. split; [exact Hout|]. split; [exact Hout'|].
  intros v Hv. apply Hspec. apply Hspec' in Hv.
  eapply Qle_trans; [|exact Hv]. unfold np_floor. rewrite <- Zle_Qle.
  apply Qfloor_resp_le, fl64_scale_mono, Hle.
Qed.

(** X9. A voxel that no image labels CSF is 0 in the intersection as soon
    as [N * prob] reaches 1 (N the number of image files): only below [1/N]
    does [prob] let a voxel without a vote through. *)
Theorem csf_mask_intersection_drops_voxels_without_votes
  (img_dir : string) (masks : masks_arg) (prob : Q) :
  0 <= prob /\ prob <= 1 ->
  let data := image_list img_dir in
  let pairs := combine data (mask_list masks data) in
  pairs <> [] ->
  1 <= len data * prob ->
  exists csf out,
    computed_masks pairs csf /\
    snd (csf_mask_intersection img_dir masks prob) = Ok out /\
    forall v, Forall (fun c => c v = 0) csf -> out v = 0.
Proof.
  intros Hprob data pairs Hne Hone.
  destruct (csf_mask_intersection_result img_dir masks prob Hprob)
    as (csf & Hc & _ & [[Hnil _]|[_ (out & Hout & Hspec)]]); [contradiction|].
  fold data in Hspec.
  exists csf, out. split; [exact Hc|]. split; [exact Hout|].
  intros v Hall. destruct (Hspec v) as [[H1|H0] Hiff]; [|exact H0].
  exfalso. apply Hiff in H1.
  assert (Hv : votes csf v == 0).
  { clear - Hall. induction Hall as [|c cs Hc0 _ IH]; [reflexivity|].
    change (votes (c :: cs) v) with (c v + votes cs v).
    rewrite Hc0, IH. reflexivity. }
  assert (Hfl : 1 <= np_floor (fl64 (len data * prob))).
  { unfold np_floor. rewrite <- (Zle_Qle 1). rewrite <- (Qfloor_Z 1).
    apply Qfloor_resp_le, fl64_scale_ge_one, Hone. }
  rewrite Hv in H1. lra.
Qed.

(** X10. The result depends on [prob] only through the threshold count the
    program computes, the floor of the double product [N * prob]: two values
    of [prob] for which that count is the same give the same mask. *)
Theorem csf_mask_intersection_depends_on_threshold_count
  (img_dir : string) (masks : masks_arg) (prob prob' : Q) :
  0 <= prob /\ prob <= 1 ->
  0 <= prob' /\ prob' <= 1 ->
  Qfloor (fl64 (len (image_list img_dir) * prob)) =
  Qfloor (fl64 (len (image_list img_dir) * prob')) ->
  snd (csf_mask_intersection img_dir masks prob) =
  snd (csf_mask_intersection img_dir masks prob').
Proof.
  intros Hp Hp' Hfl. apply prob_in_range_iff in Hp, Hp'.
  destruct (csf_mask_intersection_run kmeans_three img_dir masks prob Hp)
    as (csf & Hc & _ & Hrun).
  destruct (csf_mask_intersection_run kmeans_three img_dir masks prob' Hp')
    as (csf' & Hc' & _ & Hrun').
  pose proof (computed_masks_functional _ _ _ Hc Hc'). subst csf'.
  rewrite Hrun, Hrun'. cbn [snd]. unfold np_floor. rewrite Hfl. reflexivity.
Qed.

End IntersectionFacts.

Section LoopFacts.
Context {W : World}.

(** ** [csf_mask_intersection]: which files are read, and which mask goes
    with which image *)

Lemma segmentations_app t1 t2 :
  segmentations (t1 ++ t2) = segmentations t1 ++ segmentations t2.
Proof. apply flat_map_app. Qed.

Lemma segmentations_listing_trace img_dir masks :
  segmentations (listing_trace img_dir masks) = [].
Proof. destruct masks; reflexivity. Qed.

Lemma segmentations_loop_trace total pairs : forall i,
  segmentations (loop_trace total i pairs) =
    map (fun pr => (image_read (fst pr), load_mask (snd pr))) pairs.
Proof.
  induction pairs as [|[img mask] rest IH]; intros i; [reflexivity|].
  cbn [loop_trace map fst snd]. rewrite <- (IH (S i)).
  destruct mask; reflexivity.
Qed.

Lemma reads_loop_trace_shared total (m : image) (data : list string) : forall n i,
  reads (loop_trace total i (combine data (repeat (MaskObj m) n))) = firstn n data.
Proof.
  induction data as [|img data IH]; intros [|n] i; try reflexivity.
  cbn [repeat combine loop_trace firstn]. rewrite <- (IH n (S i)). reflexivity.
Qed.

Lemma combine_repeat_all {A B} (y : B) (l : list A) :
  map fst (combine l (repeat y (length l))) = l /\
  map snd (combine l (repeat y (length l))) = repeat y (length l).
Proof.
  induction l as [|x l [IH1 IH2]]; [split; reflexivity|].
  cbn [length repeat combine map fst snd]. rewrite IH1, IH2. split; reflexivity.
Qed.

Section ThreeClassesAgain.
Hypothesis kmeans_three :
  forall a m mrf, length (kmeans_segmentation a 3 m mrf) = 3%nat.

(** X11. Given one mask object instead of a directory (also the default
    [None]), the call reads exactly the image files, each once and in
    sorted order, and no other file; every image is segmented, and each
    segmentation receives that same object as its mask. *)
Theorem csf_mask_intersection_shares_a_mask_object
  (img_dir : string) (m : image) (prob : Q) :
  0 <= prob /\ prob <= 1 ->
  let data := image_list img_dir in
  reads (fst (csf_mask_intersection img_dir (MasksObj m) prob)) = data /\
  segmentations (fst (csf_mask_intersection img_dir (MasksObj m) prob)) =
    map (fun img => (image_read img, m)) data.
Proof.
  intros Hprob data. apply prob_in_range_iff in Hprob.
  destruct (csf_mask_intersection_run kmeans_three img_dir (MasksObj m) prob Hprob)
    as (csf & _ & _ & Hrun).
  cbn [mask_list] in Hrun. fold data in Hrun. rewrite Hrun. cbn [fst]. split.
  - rewrite reads_app, reads_listing_trace, reads_loop_trace_shared.
    cbn [app]. apply firstn_all.
  - rewrite segmentations_app, segmentations_listing_trace, segmentations_loop_trace.
    cbn [app]. clear. induction data as [|img data IH]; [reflexivity|].
    cbn [length repeat combine map fst snd load_mask]. rewrite IH. reflexivity.
Qed.

(** X12. Given a mask directory, images and masks are paired by position
    in their sorted listings, whatever their names: the k-th segmentation
    is that of the k-th image file under the image read from the k-th mask
    file. *)
Theorem csf_mask_intersection_pairs_by_position
  (img_dir mask_dir : string) (prob : Q) :
  0 <= prob /\ prob <= 1 ->
  segmentations (fst (csf_mask_intersection img_dir (MasksDir mask_dir) prob)) =
    map (fun pr => (image_read (fst pr), Ants (image_read (snd pr))))
        (combine (image_list img_dir) (image_list mask_dir)).
Proof.
  intros Hprob. apply prob_in_range_iff in Hprob.
  destruct (csf_mask_intersection_run kmeans_three img_dir (MasksDir mask_dir) prob Hprob)
    as (csf & _ & _ & Hrun).
  rewrite Hrun. cbn [fst mask_list].
  rewrite segmentations_app, segmentations_listing_trace, segmentations_loop_trace.
  cbn [app]. fold (image_list mask_dir).
  generalize (image_list mask_dir) as ms. generalize (image_list img_dir) as data.
  induction data as [|img data IH]; intros [|mk ms]; try reflexivity.
  cbn [map combine fst snd load_mask]. rewrite IH. reflexivity.
Qed.

End ThreeClassesAgain.

(** ** [csf_mask_intersection]: an error inside the loop *)

Lemma csf_mask_default_ok (a : ANTsImage) (m : image) :
  kmeans_segmentation a 3 m (1 # 4) <> [] ->
  exists p, csf_mask_default (Ants a) m =
    ([EvKmeans a 3 m (1 # 4)], Ok (gt_astype_float (numpy p) (9 # 10))).
Proof.
  intros Hne.
  destruct (csf_mask_run (Ants a) m a m (9 # 10) false (1 # 4)) as (c & p & _ & _ & H).
  - destruct m; reflexivity.
  - exact Hne.
  - exists p. unfold csf_mask_default. rewrite H. destruct m; reflexivity.
Qed.

Lemma csf_mask_default_empty (a : ANTsImage) (m : image) :
  kmeans_segmentation a 3 m (1 # 4) = [] ->
  csf_mask_default (Ants a) m = ([EvKmeans a 3 m (1 # 4)], Err ValueError).
Proof.
  intros Hnil. unfold csf_mask_default.
  rewrite (csf_mask_empty_segmentation (Ants a) m a m) by (destruct m; auto).
  destruct m; reflexivity.
Qed.

Lemma csf_loop_stops total img mask rest : forall before i acc,
  Forall (fun pr => kmeans_segmentation (image_read (fst pr)) 3 (load_mask (snd pr)) (1 # 4)
                    <> []) before ->
  kmeans_segmentation (image_read img) 3 (load_mask mask) (1 # 4) = [] ->
  csf_loop total i (before ++ (img, mask) :: rest) acc =
    (loop_trace total i (before ++ [(img, mask)]), Err ValueError).
Proof.
  induction before as [|[img0 mask0] before IH]; intros i acc Hok Hnil;
    cbn [app csf_loop loop_trace]; unfold base_name.
  - destruct (split_filename img) as [[d b] e]. cbn [fst snd].
    rewrite bind_emit.
    erewrite bind_ok_eq by apply ants_image_read_run.
    erewrite bind_ok_eq by apply read_mask_run.
    erewrite bind_err_eq by (apply csf_mask_default_empty; exact Hnil).
    cbn [fst snd app]. destruct mask; reflexivity.
  - inversion Hok as [|? ? Hhd Htl]; subst. cbn [fst snd] in Hhd.
    destruct (csf_mask_default_ok _ _ Hhd) as (p & Hp).
    destruct (split_filename img0) as [[d b] e]. cbn [fst snd].
    rewrite bind_emit.
    erewrite bind_ok_eq by apply ants_image_read_run.
    erewrite bind_ok_eq by apply read_mask_run.
    erewrite bind_ok_eq by exact Hp.
    rewrite (IH (S i) _ Htl Hnil). cbn [fst snd app].
    destruct mask0; reflexivity.
Qed.

(** X13. The loop has no handler: when [csf_mask] fails for an image
    (here: the segmentation returns no probability image, so [np.argmin]
    raises [ValueError]) after the images [before] went through, the call
    ends with that error right after that segmentation. The images behind
    it are neither announced nor read, and no partial mask is returned. *)
Theorem csf_mask_intersection_stops_at_first_failure
  (img_dir : string) (masks : masks_arg) (prob : Q)
  (before rest : list (string * mask_item)) (img : string) (mask : mask_item) :
  0 <= prob /\ prob <= 1 ->
  let data := image_list img_dir in
  combine data (mask_list masks data) = before ++ (img, mask) :: rest ->
  Forall (fun pr => kmeans_segmentation (image_read (fst pr)) 3 (load_mask (snd pr)) (1 # 4)
                    <> []) before ->
  kmeans_segmentation (image_read img) 3 (load_mask mask) (1 # 4) = [] ->
  csf_mask_intersection img_dir masks prob =
    (listing_trace img_dir masks ++
     loop_trace (length data) 0 (before ++ [(img, mask)]),
     Err ValueError) /\
  logs (fst (csf_mask_intersection img_dir masks prob)) =
    progress_log (length data) (map fst before ++ [img]).
Proof.
  intros Hprob data Hpairs Hok Hnil. apply prob_in_range_iff in Hprob.
  assert (Hrun : csf_mask_intersection img_dir masks prob =
    (listing_trace img_dir masks ++
     loop_trace (length data) 0 (before ++ [(img, mask)]), Err ValueError)).
  { unfold csf_mask_intersection. rewrite Hprob. cbn [negb].
    erewrite bind_ok_eq by apply glob_sorted_run.
    erewrite bind_ok_eq by apply mask_list_run.
    fold data. rewrite Hpairs.
    erewrite bind_err_eq by (apply csf_loop_stops; assumption).
    unfold listing_trace. destruct masks; reflexivity. }
  split; [exact Hrun|].
  rewrite Hrun. cbn [fst]. rewrite logs_app, logs_listing_trace, logs_loop_trace.
  cbn [app]. unfold progress_log, enumerate.
  rewrite map_app, !length_app, !length_map. reflexivity.
Qed.

End LoopFacts.

(** ** The listings *)

Lemma StronglySorted_le_unique l : forall l',
  StronglySorted string_le l -> StronglySorted string_le l' ->
  Permutation l l' -> l = l'.
Proof.
  induction l as [|x l IH]; intros l' Hs Hs' Hp.
  - apply Permutation_nil in Hp. congruence.
  - destruct l' as [|y l'];
      [apply Permutation_sym, Permutation_nil in Hp; discriminate|].
    inversion Hs as [|? ? Hs1 Hall]; inversion Hs' as [|? ? Hs1' Hall']; subst.
    rewrite Forall_forall in Hall, Hall'.
    assert (Hxy : string_le x y).
    { assert (Hin : In y (x :: l))
        by (eapply Permutation_in; [apply Permutation_sym; exact Hp|left; reflexivity]).
      destruct Hin as [->|Hin]; [apply string_le_lt_or_eq; auto|auto]. }
    assert (Hyx : string_le y x).
    { assert (Hin : In x (y :: l'))
        by (eapply Permutation_in; [exact Hp|left; reflexivity]).
      destruct Hin as [->|Hin]; [apply string_le_lt_or_eq; auto|auto]. }
    assert (x = y) by (apply String.leb_antisym; assumption). subst y.
    f_equal. apply IH; try assumption.
    eapply Permutation_cons_inv. exact Hp.
Qed.

Lemma sorted_StronglySorted l : StronglySorted string_le (sorted l).
Proof.
  apply Sorted_StronglySorted; [|apply sorted_Sorted].
  intros a b c. apply string_le_trans.
Qed.

(** X14. The run does not depend on the order in which the file system
    lists the image directory: whatever rearrangement [l] of its files
    [glob] returns, line 75 yields [sorted l], and a call with one mask
    object reads the files in that order and logs them in that order, with
    the number of files as total. *)
Theorem csf_mask_intersection_ignores_listing_order {W : World}
  (img_dir : string) (m : image) (prob : Q) (l : list string) :
  (forall a k mrf, length (kmeans_segmentation a 3 k mrf) = 3%nat) ->
  0 <= prob /\ prob <= 1 ->
  Permutation (glob (os_path_join img_dir "*.nii*")) l ->
  glob_sorted img_dir = ([EvGlob (os_path_join img_dir "*.nii*")], Ok (sorted l)) /\
  reads (fst (csf_mask_intersection img_dir (MasksObj m) prob)) = sorted l /\
  logs (fst (csf_mask_intersection img_dir (MasksObj m) prob)) =
    progress_log (length l) (sorted l).
Proof.
  intros kmeans_three Hprob Hp.
  assert (Hdata : image_list img_dir = sorted l).
  { unfold image_list.
    apply StronglySorted_le_unique; try apply sorted_StronglySorted.
    rewrite <- (sorted_perm l), <- sorted_perm. exact Hp. }
  assert (Hlen : length (image_list img_dir) = length l).
  { unfold image_list. rewrite <- (Permutation_length Hp).
    symmetry. apply Permutation_length, sorted_perm. }
  apply prob_in_range_iff in Hprob.
  destruct (csf_mask_intersection_run kmeans_three img_dir (MasksObj m) prob Hprob)
    as (csf & _ & _ & Hrun).
  cbn [mask_list] in Hrun. rewrite Hrun. cbn [fst].
  split; [|split].
  - unfold glob_sorted. fold (image_list img_dir). rewrite Hdata. reflexivity.
  - rewrite reads_app, reads_listing_trace, reads_loop_trace_shared.
    cbn [app]. rewrite firstn_all. exact Hdata.
  - rewrite logs_app, logs_listing_trace, logs_loop_trace. cbn [app].
    unfold progress_log, enumerate.
    rewrite (proj1 (combine_repeat_all (MaskObj m) (image_list img_dir))).
    rewrite length_combine, repeat_length, Nat.min_id, Hlen, Hdata.
    rewrite <- Hlen at 1. rewrite Hdata. reflexivity.
Qed.

Lemma string_append_assoc (a b c : string) : ((a ++ b) ++ c = a ++ (b ++ c))%string.
Proof. induction a as [|x a IH]; simpl; [reflexivity|]. rewrite IH. reflexivity. Qed.

Lemma list_ascii_of_string_append (a b : string) :
  list_ascii_of_string (a ++ b) = list_ascii_of_string a ++ list_ascii_of_string b.
Proof. induction a as [|x a IH]; simpl; [reflexivity|]. rewrite IH. reflexivity. Qed.

Lemma os_path_join_trailing_sep (d b : string) :
  d <> ""%string -> ends_with_sep d = false ->
  os_path_join (d ++ "/") b = os_path_join d b.
Proof.
  intros Hd Hsep. unfold os_path_join.
  destruct (String.prefix "/" b); [reflexivity|].
  assert (Hs : ends_with_sep (d ++ "/") = true).
  { unfold ends_with_sep. rewrite list_ascii_of_string_append, rev_app_distr.
    reflexivity. }
  rewrite Hs, orb_true_r, Hsep, orb_false_r.
  apply String.eqb_neq in Hd. rewrite Hd.
  apply string_append_assoc.
Qed.

(** X15. A trailing separator on the directories changes nothing: called
    with ["dir/"] the function lists the same pattern and ends with the same
    trace and the same result as called with ["dir"]. *)
Theorem csf_mask_intersection_ignores_trailing_separator {W : World}
  (img_dir mask_dir : string) (prob : Q) :
  img_dir <> ""%string -> ends_with_sep img_dir = false ->
  mask_dir <> ""%string -> ends_with_sep mask_dir = false ->
  csf_mask_intersection (img_dir ++ "/") (MasksDir (mask_dir ++ "/")) prob =
  csf_mask_intersection img_dir (MasksDir mask_dir) prob /\
  forall m,
    csf_mask_intersection (img_dir ++ "/") (MasksObj m) prob =
    csf_mask_intersection img_dir (MasksObj m) prob.
Proof.
  intros Hi Hie Hm Hme.
  unfold csf_mask_intersection, glob_sorted.
  rewrite !os_path_join_trailing_sep by assumption.
  split; reflexivity.
Qed.

(** ** The entry point *)


(** ** The properties on the small world *)

Lemma csf_mask_attribute_error_before_any_call_witness :
  @csf_mask tiny (Nib [0; 1; 4; 9]) (Ants [1; 1; 1; 1]) (9 # 10) false (1 # 4) =
    ([], Err AttributeError) /\
  @csf_mask tiny PyNone (Ants [1; 1; 1; 1]) (9 # 10) false (1 # 4) = ([], Err AttributeError).
Proof.
  split.
  - apply (@csf_mask_attribute_error_before_any_call tiny
             (Nib [0; 1; 4; 9]) (Ants [1; 1; 1; 1]) (9 # 10) false (1 # 4)).
    right. exists [0; 1; 4; 9]. split; reflexivity.
  - apply (@csf_mask_attribute_error_before_any_call tiny
             PyNone (Ants [1; 1; 1; 1]) (9 # 10) false (1 # 4)).
    left. reflexivity.
Defined.


Lemma csf_mask_designates_first_empty_class_witness :
  np_argmin (@avg_intensity tiny [0; 7; 1; 6] (tiny_classes [0; 7; 1; 6])) = Ok 2%nat /\
  exists out,
    snd (@csf_mask tiny (Ants [0; 7; 1; 6]) PyNone (9 # 10) false (1 # 4)) = Ok out /\
    forall v, In v [0; 1; 2; 3]%nat -> out v = 0.
Proof.
  destruct (@csf_mask_designates_first_empty_class tiny (Ants [0; 7; 1; 6]) PyNone
              (9 # 10) (1 # 4) [0; 7; 1; 6] PyNone
              [ map (fun x => if Qle_bool x 5 then 0 else 1) [0; 7; 1; 6];
                map (fun x => if Qle_bool x 1 then 1 else 0) [0; 7; 1; 6] ]
              []
              (map (fun x => if Qle_bool x 1 then 0 else if Qle_bool x 5 then 1 else 0)
                   [0; 7; 1; 6]))
    as (Harg & _ & out & Hout & Hzero).
  - reflexivity.
  - reflexivity.
  - intros q [<-|[<-|[]]]; vm_compute; discriminate.
  - reflexivity.
  - split; [exact Harg|]. exists out. split; [exact Hout|].
    apply Hzero. unfold Qle. simpl. lia.
Defined.

Lemma csf_mask_intersection_returns_iff_pairs_witness :
  snd (@csf_mask_intersection tiny "imgs" (MasksDir "nomasks") 1) = Err TypeError /\
  exists out, snd (@csf_mask_intersection tiny "imgs" (MasksDir "masks") 1) = Ok out.
Proof.
  split.
  - apply (@csf_mask_intersection_returns_iff_pairs tiny tiny_three_classes
             "imgs" (MasksDir "nomasks") 1); [in_range|].
    right. reflexivity.
  - apply (@csf_mask_intersection_returns_iff_pairs tiny tiny_three_classes
             "imgs" (MasksDir "masks") 1); [in_range|].
    split; vm_compute; discriminate.
Defined.

Lemma csf_mask_intersection_keeps_unanimous_voxels_witness :
  exists out,
    snd (@csf_mask_intersection tiny "imgs" (MasksObj PyNone) (1 # 2)) = Ok out /\
    out 0%nat = 1.
Proof.
  destruct (@csf_mask_intersection_keeps_unanimous_voxels tiny tiny_three_classes
              "imgs" (MasksObj PyNone) (1 # 2))
    as (csf & out & Hc & _ & Hout & Hall).
  - in_range.
  - vm_compute. discriminate.
  - vm_compute. lia.
  - exists out. split; [exact Hout|]. apply Hall.
    inversion Hc as [|? c1 ? ? H1 Hc1]; subst.
    inversion Hc1 as [|? c2 ? ? H2 Hc2]; subst.
    inversion Hc2 as [|? c3 ? ? H3 Hc3]; subst.
    inversion Hc3; subst.
    vm_compute in H1, H2, H3.
    injection H1 as <-. injection H2 as <-. injection H3 as <-.
    repeat constructor.
Defined.

Lemma csf_mask_intersection_shrinks_with_prob_witness :
  exists out out',
    snd (@csf_mask_intersection tiny "imgs" (MasksObj PyNone) (1 # 2)) = Ok out /\
    snd (@csf_mask_intersection tiny "imgs" (MasksObj PyNone) 1) = Ok out' /\
    forall v, out' v = 1 -> out v = 1.
Proof.
  apply (@csf_mask_intersection_shrinks_with_prob tiny tiny_three_classes
           "imgs" (MasksObj PyNone) (1 # 2) 1).
  - unfold Qle. simpl. lia.
  - unfold Qle. simpl. lia.
  - unfold Qle. simpl. lia.
  - vm_compute. discriminate.
Defined.

Lemma csf_mask_intersection_drops_voxels_without_votes_witness :
  exists out,
    snd (@csf_mask_intersection tiny "imgs" (MasksObj PyNone) (1 # 2)) = Ok out /\
    out 3%nat = 0.
Proof.
  destruct (@csf_mask_intersection_drops_voxels_without_votes tiny tiny_three_classes
              "imgs" (MasksObj PyNone) (1 # 2))
    as (csf & out & Hc & Hout & Hall).
  - in_range.
  - vm_compute. discriminate.
  - vm_compute. discriminate.
  - exists out. split; [exact Hout|]. apply Hall.
    inversion Hc as [|? c1 ? ? H1 Hc1]; subst.
    inversion Hc1 as [|? c2 ? ? H2 Hc2]; subst.
    inversion Hc2 as [|? c3 ? ? H3 Hc3]; subst.
    inversion Hc3; subst.
    vm_compute in H1, H2, H3.
    injection H1 as <-. injection H2 as <-. injection H3 as <-.
    repeat constructor.
Defined.

(** Three images: the doubles 1/3 and 5/8 both give the count 1. *)
Lemma csf_mask_intersection_depends_on_threshold_count_witness :
  snd (@csf_mask_intersection tiny "imgs" (MasksObj PyNone) (fl64 (1 # 3))) =
  snd (@csf_mask_intersection tiny "imgs" (MasksObj PyNone) (5 # 8)).
Proof.
  apply (@csf_mask_intersection_depends_on_threshold_count tiny tiny_three_classes
           "imgs" (MasksObj PyNone) (fl64 (1 # 3)) (5 # 8)).
  - split; vm_compute; discriminate.
  - in_range.
  - vm_compute. reflexivity.
Defined.

Lemma csf_mask_intersection_shares_a_mask_object_witness :
  reads (fst (@csf_mask_intersection tiny "imgs" (MasksObj PyNone) 1)) =
    ["imgs/a.nii.gz"; "imgs/b.nii"; "imgs/c.nii"] /\
  segmentations (fst (@csf_mask_intersection tiny "imgs" (MasksObj PyNone) 1)) =
    [ (tiny_image [0; 1; 4; 9], PyNone); (tiny_image [1; 3; 0; 8], PyNone);
      (tiny_image [0; 7; 1; 3], PyNone) ].
Proof.
  apply (@csf_mask_intersection_shares_a_mask_object tiny tiny_three_classes
           "imgs" PyNone 1).
  in_range.
Defined.

Lemma csf_mask_intersection_pairs_by_position_witness :
  segmentations (fst (@csf_mask_intersection tiny "imgs" (MasksDir "masks") 1)) =
    [ (tiny_image [0; 1; 4; 9], Ants (tiny_image [1; 1; 1; 1]));
      (tiny_image [1; 3; 0; 8], Ants (tiny_image [1; 1; 1; 1])) ].
Proof.
  apply (@csf_mask_intersection_pairs_by_position tiny tiny_three_classes
           "imgs" "masks" 1).
  in_range.
Defined.

Lemma csf_mask_intersection_stops_at_first_failure_witness :
  snd (@csf_mask_intersection tiny_broken "imgs" (MasksObj PyNone) 1) = Err ValueError /\
  logs (fst (@csf_mask_intersection tiny_broken "imgs" (MasksObj PyNone) 1)) =
    [ "Creating CSF mask for image imgs/a.nii.gz (1/3)";
      "Creating CSF mask for image imgs/b.nii (2/3)" ] /\
  reads (fst (@csf_mask_intersection tiny_broken "imgs" (MasksObj PyNone) 1)) =
    ["imgs/a.nii.gz"; "imgs/b.nii"].
Proof.
  destruct (@csf_mask_intersection_stops_at_first_failure tiny_broken
              "imgs" (MasksObj PyNone) 1
              [("imgs/a.nii.gz", MaskObj PyNone)] [("imgs/c.nii", MaskObj PyNone)]
              "imgs/b.nii" (MaskObj PyNone)) as [Hrun Hlogs].
  - in_range.
  - reflexivity.
  - constructor; [vm_compute; discriminate|constructor].
  - reflexivity.
  - split; [rewrite Hrun; reflexivity|]. split; [exact Hlogs|].
    rewrite Hrun. reflexivity.
Defined.

Lemma csf_mask_intersection_ignores_listing_order_witness :
  snd (@glob_sorted tiny "imgs") = Ok ["imgs/a.nii.gz"; "imgs/b.nii"; "imgs/c.nii"] /\
  reads (fst (@csf_mask_intersection tiny "imgs" (MasksObj PyNone) 1)) =
    ["imgs/a.nii.gz"; "imgs/b.nii"; "imgs/c.nii"] /\
  logs (fst (@csf_mask_intersection tiny "imgs" (MasksObj PyNone) 1)) =
    [ "Creating CSF mask for image imgs/a.nii.gz (1/3)";
      "Creating CSF mask for image imgs/b.nii (2/3)";
      "Creating CSF mask for image imgs/c.nii (3/3)" ].
Proof.
  destruct (@csf_mask_intersection_ignores_listing_order tiny "imgs" PyNone 1
              ["imgs/b.nii"; "imgs/c.nii"; "imgs/a.nii.gz"]%string)
    as (Hg & Hr & Hl).
  - exact tiny_three_classes.
  - in_range.
  - change (Permutation ["imgs/c.nii"; "imgs/a.nii.gz"; "imgs/b.nii"]
                        ["imgs/b.nii"; "imgs/c.nii"; "imgs/a.nii.gz"])%string.
    eapply perm_trans; [apply (Permutation_cons_append _ "imgs/c.nii"%string)|].
    apply (Permutation_cons_append ["imgs/b.nii"; "imgs/c.nii"]%string
                                   "imgs/a.nii.gz"%string).
  - split; [rewrite Hg; reflexivity|]. split; [exact Hr|exact Hl].
Defined.

Lemma csf_mask_intersection_ignores_trailing_separator_witness :
  @csf_mask_intersection tiny "imgs/" (MasksDir "masks/") 1 =
  @csf_mask_intersection tiny "imgs" (MasksDir "masks") 1.
Proof.
  apply (@csf_mask_intersection_ignores_trailing_separator tiny "imgs" "masks" 1);
    (discriminate || reflexivity).
Defined.
